(** * foreground-child: the process proxy and its close action

    A shallow embedding of [src/index.ts]: the stdio policy [getStdio],
    the three relays ([proxySignals], [proxyStreams], [proxyMessages]),
    the modern entry points [proxy] and [spawn], and the legacy entry
    point [foregroundChild].

    The program talks to its host only through method calls on the
    parent process, on the child process and on a few globals
    ([setTimeout], [process.exitCode], the process-creation function).
    The embedding is a state monad over a [World] that records every
    such call in order and keeps the listener tables of Node's
    [EventEmitter] and the pipe table of Node's streams. *)

From Stdlib Require Import ZArith String List Lia DecimalString.
From stdpp Require Import base decidable option list strings gmap.

Open Scope string_scope.
Open Scope list_scope.
Open Scope Z_scope.

(** ** JavaScript values *)

(** The values this development needs: primitives, and objects by identity. *)
Inductive Val :=
| VUndefined
| VNull
| VBool (b : bool)
| VNum (n : Z)
| VStr (s : string)
| VRef (id : nat).

#[global] Instance Val_eq_dec : EqDecision Val.
Proof. solve_decision. Defined.

(** [String(n)] for an integer [n]. *)
Definition number_to_string (n : Z) : string :=
  NilZero.string_of_int (Z.to_int n).

(** [n + s] where [n] is a number and [s] a string: JavaScript's [+]
    converts the number to a string and concatenates. *)
Definition js_add_number_string (n : Z) (s : string) : Val :=
  VStr (number_to_string n +:+ s).

(** A signal name, [NodeJS.Signals]. *)
Definition Signal := string.

(** [code: number | null] of the child's "close" event, as a value. *)
Definition code_value (code : option Z) : Val :=
  match code with
  | Some c => VNum c
  | None => VNull
  end.

(** ** Stdio options, [cp.StdioOptions] *)

(** One slot of a per-descriptor list: a mode string
    ("pipe", "ipc", "ignore", "inherit"), a stream, a file descriptor
    number, [null] or [undefined]. *)
Inductive StdioEntry :=
| SMode (m : string)
| SStream (id : nat)
| SFd (n : Z)
| SNull
| SUndefined.

#[global] Instance StdioEntry_eq_dec : EqDecision StdioEntry.
Proof. solve_decision. Defined.

Inductive StdioOptions :=
| StdioString (m : string)
| StdioArray (l : list StdioEntry).

#[global] Instance StdioOptions_eq_dec : EqDecision StdioOptions.
Proof. solve_decision. Defined.

(** [Array.prototype.indexOf]: index of the first slot strictly equal
    to [x], counted from [i]; [-1] when there is none. *)
Fixpoint indexOf_from (l : list StdioEntry) (x : StdioEntry) (i : Z) : Z :=
  match l with
  | [] => -1
  | y :: t => if decide (y = x) then i else indexOf_from t x (i + 1)
  end.

Definition indexOf (l : list StdioEntry) (x : StdioEntry) : Z :=
  indexOf_from l x 0.

(** [getStdio(base, withIpc)], index.ts lines 198-212. *)
Definition getStdio (base : option StdioOptions) (withIpc : bool) : StdioOptions :=
  let base :=
    match base with
    | None => StdioString "inherit"
    | Some b => b
    end in
  if negb withIpc then base
  else
    match base with
    | StdioString s => StdioArray [SMode s; SMode s; SMode s; SMode "ipc"]
    | StdioArray l =>
        if indexOf l (SMode "ipc") <? 0
        then StdioArray (l ++ [SMode "ipc"])
        else base
    end.

(** ** Processes, listeners and the calls the program makes *)

(** A stream object, by identity. *)
Definition Stream := nat.

(** [ProcessLike], index.ts lines 20-43.  [handle] is the identity of
    the object ([parent === process] compares it) and [has_send] says
    whether the optional [send] method is there. *)
Record ProcessLike := mkProcessLike {
  handle : nat;
  pid : Z;
  stdout : Stream;
  stderr : Stream;
  stdin : Stream;
  has_send : bool
}.

Definition same_object (a b : ProcessLike) : bool :=
  bool_decide (handle a = handle b).

(** [cp.ChildProcess]: each stream is [Some] when
    [typeof child.stdX === "object" && child.stdX !== null]. *)
Record ChildProcess := mkChildProcess {
  child_pid : Z;
  child_stdout : option Stream;
  child_stderr : option Stream;
  child_stdin : option Stream
}.

(** A process-creation function, [typeof cp.spawn]: Node's own,
    [cross-spawn], or one supplied by the caller. *)
Inductive SpawnFn :=
| HostSpawn
| CrossSpawn
| CustomSpawn (id : nat).

(** A named field of an object: the key is absent, or it is an own key
    of the object with the value [undefined], or with a value. *)
Inductive Field (A : Type) :=
| Absent
| Undefined
| Present (a : A).

Arguments Absent {A}.
Arguments Undefined {A}.
Arguments Present {A} a.

(** [o.k]: reading an absent key gives [undefined], here [None], like
    reading a key whose value is [undefined]. *)
Definition read {A} (f : Field A) : option A :=
  match f with
  | Present a => Some a
  | Absent | Undefined => None
  end.

(** [o.hasOwnProperty(k)], [k in o] for an object literal. *)
Definition has_key {A} (f : Field A) : bool :=
  match f with
  | Absent => false
  | Undefined | Present _ => true
  end.

(** [SpawnOptions], index.ts lines 117-134: the three fields the code
    names, each with its key presence, and in [opt_fields] the other
    fields of [cp.SpawnOptions] ([cwd], [env], ...), a key being
    there when the map has it. *)
Record SpawnOptions := mkSpawnOptions {
  stdio_field : Field StdioOptions;
  parent_field : Field ProcessLike;
  spawn_field : Field SpawnFn;
  opt_fields : gmap string Val
}.

(** [options.stdio], [options.parent], [options.spawn] *)
Definition opt_stdio (o : SpawnOptions) : option StdioOptions := read (stdio_field o).
Definition opt_parent (o : SpawnOptions) : option ProcessLike := read (parent_field o).
Definition opt_spawn (o : SpawnOptions) : option SpawnFn := read (spawn_field o).

(** [{}] *)
Definition empty_options : SpawnOptions :=
  mkSpawnOptions Absent Absent Absent ∅.

Inductive Event :=
| EvSignal (sig : Signal)
| EvMessage
| EvExit
| EvClose.

#[global] Instance Event_eq_dec : EqDecision Event.
Proof. solve_decision. Defined.

(** The function objects registered as listeners.  [id] is the
    identity of the closure: two evaluations of the same function
    expression give two listeners. *)
Inductive Listener :=
| SignalListener (id : nat) (sig : Signal)
| HangupListener (id : nat)
| ChildMessageListener (id : nat)
| ParentMessageListener (id : nat)
| CloseListener (id : nat)
| UserListener (id : nat).

#[global] Instance Listener_eq_dec : EqDecision Listener.
Proof. solve_decision. Defined.

Definition listener_id (l : Listener) : nat :=
  match l with
  | SignalListener id _ => id
  | HangupListener id => id
  | ChildMessageListener id => id
  | ParentMessageListener id => id
  | CloseListener id => id
  | UserListener id => id
  end.

(** Every call the program makes on its host, in the source's words. *)
Inductive Call :=
| ParentOn (ev : Event) (l : Listener)
| ParentRemoveListener (ev : Event) (l : Listener)
| ParentRemoveAllListeners (ev : Event)
| ParentExit (code : Val)
| ParentKill (p : Z) (sig : Signal)
| ParentSend (message : Val)
| ChildOn (ev : Event) (l : Listener)
| ChildRemoveListener (ev : Event) (l : Listener)
| ChildKill (sig : Signal)
| ChildSend (message : Val)
| StreamPipe (src dst : Stream)
| StreamUnpipe (src dst : Stream)
| SetExitCode (v : Val)
| SetTimeout (ms : Z)
| SpawnProcess (fn : SpawnFn) (file : string) (args : list string)
               (options : SpawnOptions)
| ResolveClose (code : option Z) (signal : option Signal)
| CallHandler (code : option Z) (signal : option Signal).

(** ** The host: Node's EventEmitter and streams *)

(** The listener table of an emitter, in order of registration. *)
Abbreviation Emitter := (list (Event * Listener)).

Fixpoint remove_first {A} `{EqDecision A} (x : A) (l : list A) : list A :=
  match l with
  | [] => []
  | y :: t => if decide (y = x) then t else y :: remove_first x t
  end.

(** [emitter.removeListener] removes at most one instance, the most
    recently added one. *)
Definition remove_last {A} `{EqDecision A} (x : A) (l : list A) : list A :=
  rev (remove_first x (rev l)).

Definition emitter_on (ev : Event) (l : Listener) (e : Emitter) : Emitter :=
  e ++ [(ev, l)].

Definition emitter_removeListener (ev : Event) (l : Listener) (e : Emitter) : Emitter :=
  remove_last (ev, l) e.

Definition emitter_removeAllListeners (ev : Event) (e : Emitter) : Emitter :=
  filter (fun p => p.1 <> ev) e.

Definition emitter_listeners (ev : Event) (e : Emitter) : list Listener :=
  snd <$> filter (fun p => p.1 = ev) e.

Record World := mkWorld {
  parent_listeners : Emitter;
  child_listeners : Emitter;
  pipes : list (Stream * Stream);
  exitCode : Val;
  calls : list Call;
  next_id : nat
}.

(** What a call does to the host, for a parent whose [exit] and [kill]
    only record the request, one table at a time. *)
Definition parent_step (c : Call) (e : Emitter) : Emitter :=
  match c with
  | ParentOn ev l => emitter_on ev l e
  | ParentRemoveListener ev l => emitter_removeListener ev l e
  | ParentRemoveAllListeners ev => emitter_removeAllListeners ev e
  | _ => e
  end.

Definition child_step (c : Call) (e : Emitter) : Emitter :=
  match c with
  | ChildOn ev l => emitter_on ev l e
  | ChildRemoveListener ev l => emitter_removeListener ev l e
  | _ => e
  end.

(** [readable.unpipe(dst)] removes the first entry for [dst]; it does
    nothing when there is none. *)
Definition pipe_step (c : Call) (p : list (Stream * Stream)) : list (Stream * Stream) :=
  match c with
  | StreamPipe src dst => p ++ [(src, dst)]
  | StreamUnpipe src dst => remove_first (src, dst) p
  | _ => p
  end.

Definition exitCode_step (c : Call) (v : Val) : Val :=
  match c with
  | SetExitCode v' => v'
  | _ => v
  end.

Definition host_step (c : Call) (w : World) : World :=
  mkWorld (parent_step c (parent_listeners w))
          (child_step c (child_listeners w))
          (pipe_step c (pipes w))
          (exitCode_step c (exitCode w))
          (calls w)
          (next_id w).

Definition record_call (c : Call) (w : World) : World :=
  mkWorld (parent_listeners w) (child_listeners w)
          (pipes w) (exitCode w) (calls w ++ [c]) (next_id w).

(** ** The monad of the program *)

Definition M (A : Type) : Type := World -> A * World.

Definition ret {A} (a : A) : M A := fun w => (a, w).

Definition bind {A B} (m : M A) (k : A -> M B) : M B :=
  fun w => let (a, w') := m w in k a w'.

Notation "'let*' x ':=' m 'in' k" := (bind m (fun x => k))
  (at level 10, x name, m at level 100, k at level 200).
Notation "m ';;' k" := (bind m (fun _ => k))
  (at level 100, k at level 200, right associativity).

(** Run [m] for its effect on the world. *)
Definition exec {A} (m : M A) (w : World) : World := (m w).2.

(** Run [m] for its result. *)
Definition eval {A} (m : M A) (w : World) : A := (m w).1.

Definition perform (c : Call) : M unit :=
  fun w => (tt, record_call c (host_step c w)).

(** A new function object. *)
Definition fresh : M nat :=
  fun w => (next_id w,
            mkWorld (parent_listeners w) (child_listeners w)
                    (pipes w) (exitCode w) (calls w) (S (next_id w))).

(** [process.exitCode] *)
Definition get_exitCode : M Val := fun w => (exitCode w, w).

(** [function noop() {}], index.ts line 6. *)
Definition noop : M unit := ret tt.

(** [CloseFn], index.ts lines 50-55: a function with two fields. *)
Record CloseFn := mkCloseFn {
  call : M unit;
  code : option Z;
  signal : option Signal
}.

(** [CloseHandler], index.ts line 217. *)
Definition CloseHandler := CloseFn -> M Val.

(** What a listener does when its event fires: the bodies of the
    function expressions of index.ts lines 79-81, 295-297, 339, 366-372.
    A listener of other code is opaque. *)
Definition fire (l : Listener) (message : Val) : M unit :=
  match l with
  | SignalListener _ sig => perform (ChildKill sig)
  | HangupListener _ => perform (ChildKill "SIGHUP")
  | ChildMessageListener _ => perform (ParentSend message)
  | ParentMessageListener _ => perform (ChildSend message)
  | CloseListener _ => ret tt
  | UserListener _ => ret tt
  end.

(** ** The relays *)

(** A JavaScript [Map] from signal to listener: [set] on a key that is
    there replaces the value in place, a new key goes to the end. *)
Definition SignalMap := list (Signal * Listener).

Fixpoint map_set (k : Signal) (v : Listener) (m : SignalMap) : SignalMap :=
  match m with
  | [] => [(k, v)]
  | (k', v') :: t =>
      if decide (k' = k) then (k, v) :: t else (k', v') :: map_set k v t
  end.

(** [signal ? a : b] for [signal: NodeJS.Signals | null]: [null] and
    the empty string are falsy; the result is the signal when truthy. *)
Definition truthy (signal : option Signal) : option Signal :=
  match signal with
  | Some s => if decide (s = "") then None else Some s
  | None => None
  end.

(** [signal ? 128 + signal : code as any], index.ts line 301. *)
Definition legacy_exit_code (code : option Z) (signal : option Signal) : Val :=
  match truthy signal with
  | Some s => js_add_number_string 128 s
  | None => code_value code
  end.

(** [{ stdio: getStdio("inherit", process.send !== undefined) }],
    index.ts lines 281-283. *)
Definition legacy_options (process : ProcessLike) : SpawnOptions :=
  mkSpawnOptions
    (Present (getStdio (Some (StdioString "inherit")) (has_send process)))
    Absent Absent ∅.

Section Program.

(** [signalExit.signals()], from the signal-exit package. *)
Variable signals : list Signal.

(** The global [process]. *)
Variable process : ProcessLike.

(** [process.platform === "win32"] *)
Variable win32 : bool.

(** The child a process-creation function returns. *)
Variable created : SpawnFn -> string -> list string -> SpawnOptions -> ChildProcess.

(** The loop of [proxySignals], index.ts lines 338-342. *)
Fixpoint attach_signals (sigs : list Signal) (listeners : SignalMap) : M SignalMap :=
  match sigs with
  | [] => ret listeners
  | sig :: rest =>
      let* id := fresh in
      let listener := SignalListener id sig in
      let listeners := map_set sig listener listeners in
      perform (ParentOn (EvSignal sig) listener) ;;
      attach_signals rest listeners
  end.

(** [unproxySignals], index.ts lines 346-350. *)
Fixpoint detach_signals (listeners : SignalMap) : M unit :=
  match listeners with
  | [] => ret tt
  | (sig, listener) :: rest =>
      perform (ParentRemoveListener (EvSignal sig) listener) ;;
      detach_signals rest
  end.

(** [proxySignals(parent, child)], index.ts lines 335-351. *)
Definition proxySignals : M (M unit) :=
  let* listeners := attach_signals signals [] in
  ret (detach_signals listeners).

(** [proxyMessages(parent, child)], index.ts lines 361-383. *)
Definition proxyMessages (parent : ProcessLike) : M (M unit) :=
  if negb (has_send parent) then ret noop
  else
    let* i := fresh in
    let childListener := ChildMessageListener i in
    let* j := fresh in
    let parentListener := ParentMessageListener j in
    perform (ChildOn EvMessage childListener) ;;
    perform (ParentOn EvMessage parentListener) ;;
    ret (perform (ChildRemoveListener EvMessage childListener) ;;
         perform (ParentRemoveListener EvMessage parentListener)).

(** [if (typeof s === "object" && s !== null) { ... }] *)
Definition when_stream (s : option Stream) (k : Stream -> M unit) : M unit :=
  match s with
  | Some x => k x
  | None => ret tt
  end.

(** [unproxyStreams], index.ts lines 406-416. *)
Definition unproxyStreams (parent : ProcessLike) (child : ChildProcess) : M unit :=
  when_stream (child_stdout child) (fun s => perform (StreamUnpipe s (stdout parent))) ;;
  when_stream (child_stderr child) (fun s => perform (StreamUnpipe s (stderr parent))) ;;
  when_stream (child_stdin child) (fun s => perform (StreamUnpipe (stdin parent) s)).

(** [proxyStreams(parent, child)], index.ts lines 393-417. *)
Definition proxyStreams (parent : ProcessLike) (child : ChildProcess) : M (M unit) :=
  when_stream (child_stdout child) (fun s => perform (StreamPipe s (stdout parent))) ;;
  when_stream (child_stderr child) (fun s => perform (StreamPipe s (stderr parent))) ;;
  when_stream (child_stdin child) (fun s => perform (StreamPipe (stdin parent) s)) ;;
  ret (unproxyStreams parent child).

(** ** The modern entry points *)

(** The close function built in [onClose], index.ts lines 89-104. *)
Definition close_body (parent : ProcessLike) (code : option Z) (signal : option Signal) : M unit :=
  match signal with
  | Some s =>
      (if same_object parent process then perform (SetTimeout 200) else ret tt) ;;
      perform (ParentKill (pid parent) s)
  | None => perform (ParentExit (code_value code))
  end.

(** [onClose(code, signal)], index.ts lines 83-107.  The result is the
    value the promise of [proxy] is resolved with. *)
Definition onClose (parent : ProcessLike)
    (unproxySignals unproxyStreams unproxyMessages : M unit)
    (onParentExit : Listener)
    (code : option Z) (signal : option Signal) : M CloseFn :=
  unproxyMessages ;;
  unproxyStreams ;;
  unproxySignals ;;
  perform (ParentRemoveListener EvExit onParentExit) ;;
  let closeFn := mkCloseFn (close_body parent code signal) code signal in
  perform (ResolveClose code signal) ;;
  ret closeFn.

(** What [proxy] leaves behind: the listener on the parent's "exit",
    the listener on the child's "close", and what that listener does
    when the child closes. *)
Record Proxied := mkProxied {
  exit_listener : Listener;
  close_listener : Listener;
  on_close : option Z -> option Signal -> M CloseFn
}.

(** [proxy(parent, child)], index.ts lines 70-109. *)
Definition proxy (parent : ProcessLike) (child : ChildProcess) : M Proxied :=
  let* unproxySignals := proxySignals in
  let* unproxyStreams := proxyStreams parent child in
  let* unproxyMessages := proxyMessages parent in
  let* i := fresh in
  let onParentExit := HangupListener i in
  let* j := fresh in
  let onCloseListener := CloseListener j in
  perform (ParentOn EvExit onParentExit) ;;
  perform (ChildOn EvClose onCloseListener) ;;
  ret (mkProxied onParentExit onCloseListener
         (onClose parent unproxySignals unproxyStreams unproxyMessages onParentExit)).

(** Calling a process-creation function. *)
Definition create_process (fn : SpawnFn) (file : string) (args : list string)
    (options : SpawnOptions) : M ChildProcess :=
  perform (SpawnProcess fn file args options) ;;
  ret (created fn file args options).

(** The object literal of index.ts lines 175-180: the spread copies the
    caller's fields, then [stdio] is set to the result of [getStdio]
    and [parent] and [spawn] are set to [undefined], which makes all
    three own keys of the new object. *)
Definition spawn_options (options : SpawnOptions) (parent : ProcessLike) : SpawnOptions :=
  mkSpawnOptions
    (Present (getStdio (opt_stdio options) (has_send parent)))
    Undefined
    Undefined
    (opt_fields options).

(** [SpawnResult], index.ts lines 136-149. *)
Record SpawnResult := mkSpawnResult {
  child : ChildProcess;
  close : Proxied
}.

(** [spawn(file, args, options)], index.ts lines 166-184. *)
Definition spawn (file : string) (args : option (list string))
    (options : option SpawnOptions) : M SpawnResult :=
  let args := default [] args in
  let options := default empty_options options in
  let parent := default process (opt_parent options) in
  let spawnFn := default HostSpawn (opt_spawn options) in
  let spawnOptions := spawn_options options parent in
  let* child := create_process spawnFn file args spawnOptions in
  let* close := proxy parent child in
  ret (mkSpawnResult child close).

(** ** The legacy entry point *)

(** The default callback of [normalizeArguments], index.ts line 248:
    [(done) => done()]. *)
Definition default_handler : CloseHandler :=
  fun done => call done ;; ret VUndefined.

(** The close function of the legacy path, index.ts lines 304-319. *)
Definition legacy_close_body (unproxySignals : M unit) (childHangup : Listener)
    (signal : option Signal) : M unit :=
  unproxySignals ;;
  perform (ParentRemoveListener EvExit childHangup) ;;
  match truthy signal with
  | Some s =>
      perform (SetTimeout 200) ;;
      perform (ParentKill (pid process) s)
  | None =>
      let* c := get_exitCode in
      perform (ParentExit c)
  end.

(** The listener on the child's "close", index.ts lines 299-322. *)
Definition legacy_on_close (unproxySignals : M unit) (childHangup : Listener)
    (cb : CloseHandler) (code : option Z) (signal : option Signal) : M unit :=
  perform (SetExitCode (legacy_exit_code code signal)) ;;
  let done := mkCloseFn (legacy_close_body unproxySignals childHangup signal) code signal in
  perform (CallHandler code signal) ;;
  let* _ := cb done in
  ret tt.

Record Foreground := mkForeground {
  fg_child : ChildProcess;
  fg_exit_listener : Listener;
  fg_close_listener : Listener;
  fg_on_close : option Z -> option Signal -> M unit
}.

(** [foregroundChild(...a)], index.ts lines 276-325, after
    [normalizeArguments] has split [a] into [program], [args], [cb]. *)
Definition foregroundChild (program : string) (args : list string)
    (cb : option CloseHandler) : M Foreground :=
  let simpleSpawn := if win32 then CrossSpawn else HostSpawn in
  let cb := default default_handler cb in
  let spawnOpts := legacy_options process in
  let* child := create_process simpleSpawn program args spawnOpts in
  (if has_send process then perform (ParentRemoveAllListeners EvMessage) else ret tt) ;;
  let* unproxySignals := proxySignals in
  let* unproxyMessages := proxyMessages process in
  let* i := fresh in
  let childHangup := HangupListener i in
  perform (ParentOn EvExit childHangup) ;;
  let* j := fresh in
  let closeListener := CloseListener j in
  perform (ChildOn EvClose closeListener) ;;
  ret (mkForeground child childHangup closeListener
         (legacy_on_close unproxySignals childHangup cb)).

End Program.

(** ** The arguments of the legacy entry point *)

(** One argument of [foregroundChild(...a)]: a string, an array of
    strings or a function, the kinds the overloads of index.ts lines
    262-267 allow, in any arrangement. *)
Inductive Arg :=
| ArgString (s : string)
| ArgArray (l : list string)
| ArgFunction (f : CloseHandler).

(** [NormalizedArguments], index.ts lines 222-226.  [program] is
    [None] when the source leaves it [undefined]. *)
Record NormalizedArguments := mkNormalizedArguments {
  program : option Arg;
  args : list Arg;
  cb : CloseHandler
}.

(** [a.slice(start, stop)] for indices within the array. *)
Definition slice (a : list Arg) (start stop : nat) : list Arg :=
  take (stop - start) (drop start a).

(** [normalizeArguments(a)], index.ts lines 237-259. *)
Definition normalizeArguments (a : list Arg) : NormalizedArguments :=
  let processArgsEnd := length a in
  let lastArg := last a in
  let '(cb, processArgsEnd) :=
    match lastArg with
    | Some (ArgFunction f) => (f, (processArgsEnd - 1)%nat)
    | _ => (default_handler, processArgsEnd)
    end in
  match a !! 0%nat with
  | Some (ArgArray l) =>
      mkNormalizedArguments (ArgString <$> head l) (ArgString <$> tail l) cb
  | first =>
      mkNormalizedArguments first
        match a !! 1%nat with
        | Some (ArgArray l) => ArgString <$> l
        | _ => slice a 1 processArgsEnd
        end
        cb
  end.

Definition is_array (x : Arg) : bool :=
  match x with
  | ArgArray _ => true
  | _ => false
  end.

Definition is_function (x : Arg) : bool :=
  match x with
  | ArgFunction _ => true
  | _ => false
  end.

(** ** Events reaching the listeners *)

(** The calls the body of a listener makes, see [fire]. *)
Definition fire_calls (l : Listener) (message : Val) : list Call :=
  match l with
  | SignalListener _ sig => [ChildKill sig]
  | HangupListener _ => [ChildKill "SIGHUP"]
  | ChildMessageListener _ => [ParentSend message]
  | ParentMessageListener _ => [ChildSend message]
  | CloseListener _ => []
  | UserListener _ => []
  end.

Fixpoint fire_all (ls : list Listener) (message : Val) : M unit :=
  match ls with
  | [] => ret tt
  | l :: rest => fire l message ;; fire_all rest message
  end.

(** [emitter.emit(ev, message)] of Node: the listeners registered for
    [ev] when the event occurs are called in order of registration. *)
Definition parent_emit (ev : Event) (message : Val) : M unit :=
  fun w => fire_all (emitter_listeners ev (parent_listeners w)) message w.

Definition child_emit (ev : Event) (message : Val) : M unit :=
  fun w => fire_all (emitter_listeners ev (child_listeners w)) message w.

(** What the listeners of [ev] in the table [e] do when [ev] occurs. *)
Definition emitted (ev : Event) (message : Val) (e : Emitter) : list Call :=
  concat (map (fun l => fire_calls l message) (emitter_listeners ev e)).

(** What an event [ev] of the parent makes the relays do: a signal
    is passed on once per listener registered for it, a message goes
    to the child when there is an IPC channel, and the parent's "exit"
    hangs the child up. *)
Definition forwarded (signals : list Signal) (parent : ProcessLike)
    (ev : Event) (message : Val) : list Call :=
  match ev with
  | EvSignal s => replicate (length (filter (fun x => x = s) signals)) (ChildKill s)
  | EvMessage => if has_send parent then [ChildSend message] else []
  | EvExit => [ChildKill "SIGHUP"]
  | EvClose => []
  end.

(** A host whose signal list names SIGINT twice. *)
Definition sample_repeated_signals : list Signal := ["SIGINT"; "SIGTERM"; "SIGINT"].

(** ** Observations on the record of calls *)

(** The calls [m] adds to the record when it runs in [w]. *)
Definition trace {A} (m : M A) (w : World) : list Call :=
  drop (length (calls w)) (calls (exec m w)).

(** A request to terminate the parent. *)
Definition is_termination (c : Call) : bool :=
  match c with
  | ParentExit _ | ParentKill _ _ => true
  | _ => false
  end.

Definition terminations (cs : list Call) : list Call :=
  List.filter is_termination cs.

Definition is_process_creation (c : Call) : bool :=
  match c with
  | SpawnProcess _ _ _ _ => true
  | _ => false
  end.

Definition process_creations (cs : list Call) : list Call :=
  List.filter is_process_creation cs.

(** The options object of the first call to a process-creation
    function in [cs]. *)
Fixpoint passed_options (cs : list Call) : option SpawnOptions :=
  match cs with
  | [] => None
  | SpawnProcess _ _ _ options :: _ => Some options
  | _ :: rest => passed_options rest
  end.

Definition is_timer (c : Call) : bool :=
  match c with
  | SetTimeout _ => true
  | _ => false
  end.

(** A call that undoes part of a relay, or removes a listener. *)
Definition is_teardown (c : Call) : bool :=
  match c with
  | ParentRemoveListener _ _ | ChildRemoveListener _ _ | StreamUnpipe _ _ => true
  | _ => false
  end.

(** A call that hands the close function over: [resolve(closeFn)] or
    [cb(closeFn)]. *)
Definition is_handover (c : Call) : bool :=
  match c with
  | ResolveClose _ _ | CallHandler _ _ => true
  | _ => false
  end.

(** No teardown call comes after the close function is handed over. *)
Fixpoint teardown_before_handover (cs : list Call) : bool :=
  match cs with
  | [] => true
  | c :: rest =>
      if is_handover c then forallb (fun c' => negb (is_teardown c')) rest
      else teardown_before_handover rest
  end.

Definition removes_exit_listener (l : Listener) (c : Call) : bool :=
  match c with
  | ParentRemoveListener EvExit l' => bool_decide (l' = l)
  | _ => false
  end.

(** The first termination request in [cs], if any, comes after the
    removal of the "exit" listener [l]. *)
Fixpoint exit_removed_before_termination (l : Listener) (cs : list Call) : bool :=
  match cs with
  | [] => true
  | c :: rest =>
      if removes_exit_listener l c then true
      else if is_termination c then false
      else exit_removed_before_termination l rest
  end.

(** ** The calls of each operation, written out *)

(** The world after [k] new function objects and the calls [cs]. *)
Definition after (k : nat) (cs : list Call) (w : World) : World :=
  mkWorld (fold_left (fun e c => parent_step c e) cs (parent_listeners w))
          (fold_left (fun e c => child_step c e) cs (child_listeners w))
          (fold_left (fun p c => pipe_step c p) cs (pipes w))
          (fold_left (fun v c => exitCode_step c v) cs (exitCode w))
          (calls w ++ cs)
          (k + next_id w)%nat.

(** The listeners the loop of [proxySignals] creates, from identity [n]. *)
Fixpoint signal_listeners (n : nat) (sigs : list Signal) : SignalMap :=
  match sigs with
  | [] => []
  | sig :: rest => (sig, SignalListener n sig) :: signal_listeners (S n) rest
  end.

(** The [Map] the loop of [proxySignals] builds. *)
Definition signal_map (n : nat) (sigs : list Signal) : SignalMap :=
  fold_left (fun m p => map_set p.1 p.2 m) (signal_listeners n sigs) [].

Definition on_calls (m : SignalMap) : list Call :=
  map (fun p => ParentOn (EvSignal p.1) p.2) m.

Definition off_calls (m : SignalMap) : list Call :=
  map (fun p => ParentRemoveListener (EvSignal p.1) p.2) m.

Definition stream_calls (s : option Stream) (c : Stream -> Call) : list Call :=
  match s with
  | Some x => [c x]
  | None => []
  end.

Definition pipe_calls (parent : ProcessLike) (child : ChildProcess) : list Call :=
  stream_calls (child_stdout child) (fun s => StreamPipe s (stdout parent)) ++
  stream_calls (child_stderr child) (fun s => StreamPipe s (stderr parent)) ++
  stream_calls (child_stdin child) (fun s => StreamPipe (stdin parent) s).

Definition unpipe_calls (parent : ProcessLike) (child : ChildProcess) : list Call :=
  stream_calls (child_stdout child) (fun s => StreamUnpipe s (stdout parent)) ++
  stream_calls (child_stderr child) (fun s => StreamUnpipe s (stderr parent)) ++
  stream_calls (child_stdin child) (fun s => StreamUnpipe (stdin parent) s).

(** The calls of [proxyMessages] with its two listeners at [n], [n+1]. *)
Definition message_on_calls (parent : ProcessLike) (n : nat) : list Call :=
  if has_send parent
  then [ChildOn EvMessage (ChildMessageListener n);
        ParentOn EvMessage (ParentMessageListener (S n))]
  else [].

Definition message_off_calls (parent : ProcessLike) (n : nat) : list Call :=
  if has_send parent
  then [ChildRemoveListener EvMessage (ChildMessageListener n);
        ParentRemoveListener EvMessage (ParentMessageListener (S n))]
  else [].

(** How many function objects [proxyMessages] creates. *)
Definition message_ids (parent : ProcessLike) : nat :=
  if has_send parent then 2%nat else 0%nat.

(** Every listener of the two emitters was created before [next_id]. *)
Definition listeners_known (w : World) : Prop :=
  Forall (fun p => (listener_id p.2 < next_id w)%nat) (parent_listeners w) /\
  Forall (fun p => (listener_id p.2 < next_id w)%nat) (child_listeners w).

(** The pipes [proxyStreams] makes: the child's stdout and stderr
    into the parent's, the parent's stdin into the child's. *)
Definition stream_pairs (parent : ProcessLike) (child : ChildProcess) : list (Stream * Stream) :=
  match child_stdout child with Some s => [(s, stdout parent)] | None => [] end ++
  match child_stderr child with Some s => [(s, stderr parent)] | None => [] end ++
  match child_stdin child with Some s => [(stdin parent, s)] | None => [] end.

(** None of the pipes [proxyStreams] makes is there already. *)
Definition pipes_new (parent : ProcessLike) (child : ChildProcess) (w : World) : Prop :=
  Forall (fun p => p ∉ pipes w) (stream_pairs parent child).

(** The entries the signal listeners of [m] have in the parent's table. *)
Definition signal_entries (m : SignalMap) : Emitter :=
  map (fun p => (EvSignal p.1, p.2)) m.

(** [removeListener] for each entry of [xs], in order. *)
Definition remove_each (xs : Emitter) (e : Emitter) : Emitter :=
  fold_left (fun e x => remove_last x e) xs e.

(** The entry of [proxyMessages] in the parent's table, and in the
    child's, for listeners created at [n] and [n+1]. *)
Definition parent_message_entry (parent : ProcessLike) (n : nat) : Emitter :=
  if has_send parent then [(EvMessage, ParentMessageListener (S n))] else [].

Definition child_message_entry (parent : ProcessLike) (n : nat) : Emitter :=
  if has_send parent then [(EvMessage, ChildMessageListener n)] else [].

(** [m] run in [w] returns [a], creates [k] function objects and makes
    the calls [cs]. *)
Definition runs {A} (m : M A) (w : World) (a : A) (k : nat) (cs : list Call) : Prop :=
  m w = (a, after k cs w).

(** [unproxySignals] of [proxyMessages], index.ts lines 379-382, for
    the two listeners created at [n] and [n+1]; [noop] without IPC. *)
Definition unproxyMessages (parent : ProcessLike) (n : nat) : M unit :=
  if negb (has_send parent) then noop
  else
    perform (ChildRemoveListener EvMessage (ChildMessageListener n)) ;;
    perform (ParentRemoveListener EvMessage (ParentMessageListener (S n))).

(** The calls of [proxy] when the next identity is [n]. *)
Definition proxy_calls (signals : list Signal) (parent : ProcessLike)
    (child : ChildProcess) (n : nat) : list Call :=
  on_calls (signal_listeners n signals) ++
  pipe_calls parent child ++
  message_on_calls parent (length signals + n) ++
  [ParentOn EvExit (HangupListener (message_ids parent + (length signals + n)));
   ChildOn EvClose (CloseListener (S (message_ids parent + (length signals + n))))].

(** The calls of [onClose] before it resolves the promise. *)
Definition teardown_calls (parent : ProcessLike) (child : ChildProcess)
    (m : SignalMap) (k : nat) (l : Listener) : list Call :=
  message_off_calls parent k ++
  unpipe_calls parent child ++
  off_calls m ++
  [ParentRemoveListener EvExit l].

(** The calls of the modern close function. *)
Definition close_calls (process parent : ProcessLike) (code : option Z)
    (signal : option Signal) : list Call :=
  match signal with
  | Some s =>
      (if same_object parent process then [SetTimeout 200] else []) ++
      [ParentKill (pid parent) s]
  | None => [ParentExit (code_value code)]
  end.

(** The calls of the legacy close function when [process.exitCode] is [v]. *)
Definition legacy_close_calls (process : ProcessLike) (m : SignalMap)
    (l : Listener) (signal : option Signal) (v : Val) : list Call :=
  off_calls m ++
  [ParentRemoveListener EvExit l] ++
  match truthy signal with
  | Some s => [SetTimeout 200; ParentKill (pid process) s]
  | None => [ParentExit v]
  end.

(** The calls of [foregroundChild] when the next identity is [n]. *)
Definition legacy_calls (signals : list Signal) (process : ProcessLike)
    (win32 : bool) (program : string) (args : list string) (n : nat) : list Call :=
  [SpawnProcess (if win32 then CrossSpawn else HostSpawn) program args
                (legacy_options process)] ++
  (if has_send process then [ParentRemoveAllListeners EvMessage] else []) ++
  on_calls (signal_listeners n signals) ++
  message_on_calls process (length signals + n) ++
  [ParentOn EvExit (HangupListener (message_ids process + (length signals + n)));
   ChildOn EvClose (CloseListener (S (message_ids process + (length signals + n))))].

Definition sets_exitCode (c : Call) : bool :=
  match c with
  | SetExitCode _ => true
  | _ => false
  end.

(** A call that registers or removes a listener or a pipe. *)
Definition is_relay_call (c : Call) : bool :=
  match c with
  | ParentOn _ _ | ParentRemoveListener _ _ | ParentRemoveAllListeners _
  | ChildOn _ _ | ChildRemoveListener _ _
  | StreamPipe _ _ | StreamUnpipe _ _ => true
  | _ => false
  end.

(** Sample inputs: a host with three signals, the real process with
    an IPC channel, a fake parent without one, and a child whose stdout
    and stdin are stream objects. *)
Definition sample_signals : list Signal := ["SIGHUP"; "SIGINT"; "SIGTERM"].

Definition sample_process : ProcessLike :=
  mkProcessLike 0%nat 100 1%nat 2%nat 3%nat true.

Definition sample_parent : ProcessLike :=
  mkProcessLike 7%nat 55 11%nat 12%nat 13%nat false.

Definition sample_created (fn : SpawnFn) (file : string) (args : list string)
    (options : SpawnOptions) : ChildProcess :=
  mkChildProcess 200 (Some 21%nat) None (Some 23%nat).

Definition sample_child : ChildProcess :=
  sample_created HostSpawn "cat" [] empty_options.

Definition sample_world : World :=
  mkWorld [(EvMessage, UserListener 0%nat); (EvSignal "SIGINT", UserListener 1%nat)]
          [] [] VUndefined [] 2%nat.

(** The parent's table once the legacy path has removed the "message"
    listeners, before it attaches its own. *)
Definition legacy_base (process : ProcessLike) (e : Emitter) : Emitter :=
  if has_send process then emitter_removeAllListeners EvMessage e else e.

(** How many function objects [proxy] creates. *)
Definition proxy_ids (signals : list Signal) (parent : ProcessLike) : nat :=
  (length signals + message_ids parent + 2)%nat.

(** What [proxy] adds to the parent's table when the next identity is
    [n]. *)
Definition attached_entries (signals : list Signal) (parent : ProcessLike)
    (n : nat) : Emitter :=
  signal_entries (signal_listeners n signals) ++
  parent_message_entry parent (length signals + n) ++
  [(EvExit, HangupListener (message_ids parent + (length signals + n)))].

(** ** Properties *)

Lemma after_nil w : after 0 [] w = w.
Proof.
  destruct w; unfold after; simpl. by rewrite app_nil_r.
Qed.

Lemma after_after k1 cs1 k2 cs2 w :
  after k2 cs2 (after k1 cs1 w) = after (k1 + k2) (cs1 ++ cs2) w.
Proof.
  unfold after; simpl.
  rewrite !fold_left_app, app_assoc. f_equal. lia.
Qed.

Lemma runs_ret {A} (a : A) w : runs (ret a) w a 0 [].
Proof. unfold runs, ret. by rewrite after_nil. Qed.

Lemma runs_bind {A B} (m : M A) (f : A -> M B) w a k cs b k' cs' :
  runs m w a k cs ->
  runs (f a) (after k cs w) b k' cs' ->
  runs (bind m f) w b (k + k') (cs ++ cs').
Proof.
  unfold runs, bind. intros -> ->. by rewrite after_after.
Qed.

Lemma runs_perform c w : runs (perform c) w tt 0 [c].
Proof. reflexivity. Qed.

Lemma runs_fresh w : runs fresh w (next_id w) 1 [].
Proof.
  unfold runs, fresh, after; simpl. by rewrite app_nil_r.
Qed.

Lemma runs_exec {A} (m : M A) w a k cs : runs m w a k cs -> exec m w = after k cs w.
Proof. unfold runs, exec. by intros ->. Qed.

Lemma runs_eval {A} (m : M A) w a k cs : runs m w a k cs -> eval m w = a.
Proof. unfold runs, eval. by intros ->. Qed.

Lemma exec_bind {A B} (m : M A) (f : A -> M B) w :
  exec (bind m f) w = exec (f (eval m w)) (exec m w).
Proof. unfold exec, eval, bind. by destruct (m w). Qed.

Lemma eval_bind {A B} (m : M A) (f : A -> M B) w :
  eval (bind m f) w = eval (f (eval m w)) (exec m w).
Proof. unfold exec, eval, bind. by destruct (m w). Qed.

Lemma exec_bind_runs {A B} (m : M A) (f : A -> M B) w a k cs :
  runs m w a k cs -> exec (bind m f) w = exec (f a) (after k cs w).
Proof. intros H. by rewrite exec_bind, (runs_eval _ _ _ _ _ H), (runs_exec _ _ _ _ _ H). Qed.

Lemma exec_bind_ret {A B} (m : M A) (b : B) w :
  exec (bind m (fun _ => ret b)) w = exec m w.
Proof. by rewrite exec_bind. Qed.

Lemma exec_trace {A} (m : M A) w k cs : exec m w = after k cs w -> trace m w = cs.
Proof. intros H. unfold trace. rewrite H. simpl. by rewrite drop_app_length. Qed.

Lemma runs_trace {A} (m : M A) w a k cs : runs m w a k cs -> trace m w = cs.
Proof.
  intros H. unfold trace. rewrite (runs_exec _ _ _ _ _ H). simpl.
  by rewrite drop_app_length.
Qed.

Lemma runs_eq {A} (m : M A) w a k cs a' k' cs' :
  runs m w a k cs -> a = a' -> k = k' -> cs = cs' -> runs m w a' k' cs'.
Proof. by intros H <- <- <-. Qed.

Section Traces.

Variable signals : list Signal.
Variable process : ProcessLike.
Variable win32 : bool.
Variable created : SpawnFn -> string -> list string -> SpawnOptions -> ChildProcess.

Lemma attach_signals_runs sigs m w :
  runs (attach_signals sigs m) w
       (fold_left (fun m p => map_set p.1 p.2 m) (signal_listeners (next_id w) sigs) m)
       (length sigs)
       (on_calls (signal_listeners (next_id w) sigs)).
Proof.
  revert m w. induction sigs as [|sig rest IH]; intros m w; simpl.
  - apply runs_ret.
  - eapply runs_eq.
    + eapply runs_bind; [apply runs_fresh|].
      eapply runs_bind; [apply runs_perform|].
      apply IH.
    + reflexivity.
    + simpl. lia.
    + reflexivity.
Qed.

Lemma detach_signals_runs m w : runs (detach_signals m) w tt 0 (off_calls m).
Proof.
  revert w. induction m as [|[sig l] rest IH]; intros w; simpl.
  - apply runs_ret.
  - eapply runs_eq.
    + eapply runs_bind; [apply runs_perform|apply IH].
    + reflexivity.
    + reflexivity.
    + reflexivity.
Qed.

Lemma proxySignals_runs w :
  runs (proxySignals signals) w
       (detach_signals (signal_map (next_id w) signals))
       (length signals)
       (on_calls (signal_listeners (next_id w) signals)).
Proof.
  unfold proxySignals. eapply runs_eq.
  - eapply runs_bind; [apply attach_signals_runs|apply runs_ret].
  - reflexivity.
  - lia.
  - by rewrite app_nil_r.
Qed.

Lemma when_stream_runs s (c : Stream -> Call) w :
  runs (when_stream s (fun x => perform (c x))) w tt 0 (stream_calls s c).
Proof. destruct s; simpl; [apply runs_perform|apply runs_ret]. Qed.

Lemma unproxyStreams_runs parent child w :
  runs (unproxyStreams parent child) w tt 0 (unpipe_calls parent child).
Proof.
  unfold unproxyStreams, unpipe_calls. eapply runs_eq.
  - eapply runs_bind; [apply when_stream_runs|].
    eapply runs_bind; [apply when_stream_runs|].
    apply when_stream_runs.
  - reflexivity.
  - reflexivity.
  - reflexivity.
Qed.

Lemma proxyStreams_runs parent child w :
  runs (proxyStreams parent child) w (unproxyStreams parent child) 0
       (pipe_calls parent child).
Proof.
  unfold proxyStreams, pipe_calls. eapply runs_eq.
  - eapply runs_bind; [apply when_stream_runs|].
    eapply runs_bind; [apply when_stream_runs|].
    eapply runs_bind; [apply when_stream_runs|].
    apply runs_ret.
  - reflexivity.
  - reflexivity.
  - by rewrite app_nil_r.
Qed.

Lemma unproxyMessages_runs parent n w :
  runs (unproxyMessages parent n) w tt 0 (message_off_calls parent n).
Proof.
  unfold unproxyMessages, message_off_calls. destruct (has_send parent); simpl.
  - eapply runs_eq; [eapply runs_bind; apply runs_perform|..]; reflexivity.
  - apply runs_ret.
Qed.

Lemma proxyMessages_runs parent w :
  runs (proxyMessages parent) w (unproxyMessages parent (next_id w))
       (message_ids parent) (message_on_calls parent (next_id w)).
Proof.
  unfold proxyMessages, unproxyMessages, message_ids, message_on_calls.
  destruct (has_send parent); simpl.
  - eapply runs_eq.
    + eapply runs_bind; [apply runs_fresh|].
      eapply runs_bind; [apply runs_fresh|].
      eapply runs_bind; [apply runs_perform|].
      eapply runs_bind; [apply runs_perform|].
      apply runs_ret.
    + reflexivity.
    + reflexivity.
    + reflexivity.
  - apply runs_ret.
Qed.

End Traces.

Section Entry.

Variable signals : list Signal.
Variable process : ProcessLike.
Variable win32 : bool.
Variable created : SpawnFn -> string -> list string -> SpawnOptions -> ChildProcess.

Lemma onClose_runs parent child m k l code signal w :
  runs (onClose process parent (detach_signals m) (unproxyStreams parent child)
                (unproxyMessages parent k) l code signal) w
       (mkCloseFn (close_body process parent code signal) code signal) 0
       (teardown_calls parent child m k l ++ [ResolveClose code signal]).
Proof.
  unfold onClose, teardown_calls. eapply runs_eq.
  - eapply runs_bind; [apply unproxyMessages_runs|].
    eapply runs_bind; [apply unproxyStreams_runs|].
    eapply runs_bind; [apply detach_signals_runs|].
    eapply runs_bind; [apply runs_perform|].
    eapply runs_bind; [apply runs_perform|].
    apply runs_ret.
  - reflexivity.
  - reflexivity.
  - rewrite app_nil_r, <- !app_assoc. reflexivity.
Qed.

Lemma close_body_runs parent code signal w :
  runs (close_body process parent code signal) w tt 0
       (close_calls process parent code signal).
Proof.
  unfold close_body, close_calls. destruct signal as [s|].
  - destruct (same_object parent process).
    + eapply runs_eq; [eapply runs_bind; apply runs_perform|..]; reflexivity.
    + eapply runs_eq; [eapply runs_bind; [apply runs_ret|apply runs_perform]|..];
        reflexivity.
  - apply runs_perform.
Qed.

Lemma proxy_runs parent child w :
  let n := next_id w in
  let i := (message_ids parent + (length signals + n))%nat in
  runs (proxy signals process parent child) w
       (mkProxied (HangupListener i) (CloseListener (S i))
          (onClose process parent (detach_signals (signal_map n signals))
             (unproxyStreams parent child)
             (unproxyMessages parent (length signals + n)) (HangupListener i)))
       (length signals + message_ids parent + 2)
       (proxy_calls signals parent child n).
Proof.
  intros n i. unfold proxy, proxy_calls. eapply runs_eq.
  - eapply runs_bind; [apply proxySignals_runs|].
    eapply runs_bind; [apply proxyStreams_runs|].
    eapply runs_bind; [apply proxyMessages_runs|].
    eapply runs_bind; [apply runs_fresh|].
    eapply runs_bind; [apply runs_fresh|].
    eapply runs_bind; [apply runs_perform|].
    eapply runs_bind; [apply runs_perform|].
    apply runs_ret.
  - reflexivity.
  - lia.
  - reflexivity.
Qed.

Lemma create_process_runs fn file args options w :
  runs (create_process created fn file args options) w
       (created fn file args options) 0
       [SpawnProcess fn file args options].
Proof.
  unfold create_process. eapply runs_eq.
  - eapply runs_bind; [apply runs_perform|apply runs_ret].
  - reflexivity.
  - reflexivity.
  - reflexivity.
Qed.

(** [spawn] calls the process-creation function once, then [proxy]. *)
Lemma spawn_runs file args options w :
  let options' := default empty_options options in
  let parent := default process (opt_parent options') in
  let fn := default HostSpawn (opt_spawn options') in
  let args' := default [] args in
  let child := created fn file args' (spawn_options options' parent) in
  let n := next_id w in
  let i := (message_ids parent + (length signals + n))%nat in
  runs (spawn signals process created file args options) w
       (mkSpawnResult child
          (mkProxied (HangupListener i) (CloseListener (S i))
             (onClose process parent (detach_signals (signal_map n signals))
                (unproxyStreams parent child)
                (unproxyMessages parent (length signals + n)) (HangupListener i))))
       (length signals + message_ids parent + 2)
       (SpawnProcess fn file args' (spawn_options options' parent) ::
        proxy_calls signals parent child n).
Proof.
  intros options' parent fn args' child n i. unfold spawn. eapply runs_eq.
  - eapply runs_bind; [apply create_process_runs|].
    eapply runs_bind; [apply proxy_runs|].
    apply runs_ret.
  - reflexivity.
  - subst options' parent; simpl; lia.
  - simpl. by rewrite app_nil_r.
Qed.

Lemma exitCode_after k cs w :
  forallb (fun c => negb (sets_exitCode c)) cs = true ->
  exitCode (after k cs w) = exitCode w.
Proof.
  unfold after; simpl. generalize (exitCode w) as v.
  induction cs as [|c cs IH]; intros v H; simpl in *; [done|].
  apply andb_prop in H as [Hc Hcs]. rewrite IH by done.
  by destruct c.
Qed.

Lemma teardown_keeps_exitCode cs :
  forallb is_teardown cs = true ->
  forallb (fun c => negb (sets_exitCode c)) cs = true.
Proof.
  induction cs as [|c cs IH]; simpl; [done|].
  intros [Hc Hcs]%andb_prop. rewrite IH by done. by destruct c.
Qed.

Lemma exitCode_after_teardown k cs w :
  forallb is_teardown cs = true -> exitCode (after k cs w) = exitCode w.
Proof. intros H. by apply exitCode_after, teardown_keeps_exitCode. Qed.

Lemma off_calls_are_teardown m : forallb is_teardown (off_calls m) = true.
Proof. by induction m as [|[sig l] m IH]. Qed.

Lemma runs_get_exitCode w : runs get_exitCode w (exitCode w) 0 [].
Proof. unfold runs, get_exitCode. by rewrite after_nil. Qed.

Lemma legacy_close_body_runs m l signal w :
  runs (legacy_close_body process (detach_signals m) l signal) w tt 0
       (legacy_close_calls process m l signal (exitCode w)).
Proof.
  unfold legacy_close_body, legacy_close_calls.
  destruct (truthy signal) as [s|].
  - eapply runs_eq.
    + eapply runs_bind; [apply detach_signals_runs|].
      eapply runs_bind; [apply runs_perform|].
      eapply runs_bind; apply runs_perform.
    + reflexivity.
    + reflexivity.
    + reflexivity.
  - eapply runs_eq.
    + eapply runs_bind; [apply detach_signals_runs|].
      eapply runs_bind; [apply runs_perform|].
      eapply runs_bind; [apply runs_get_exitCode|].
      apply runs_perform.
    + reflexivity.
    + reflexivity.
    + rewrite !after_after, exitCode_after_teardown; [reflexivity|].
      rewrite forallb_app, off_calls_are_teardown. reflexivity.
Qed.

(** The legacy "close" listener: nothing runs after the handler
    returns, and what it returns is dropped. *)
Lemma legacy_on_close_exec unproxySignals l cb code signal w :
  exec (legacy_on_close process unproxySignals l cb code signal) w =
  exec (cb (mkCloseFn (legacy_close_body process unproxySignals l signal) code signal))
       (after 0 [SetExitCode (legacy_exit_code code signal); CallHandler code signal] w).
Proof.
  unfold legacy_on_close.
  rewrite (exec_bind_runs _ _ _ _ _ _ (runs_perform _ _)).
  rewrite (exec_bind_runs _ _ _ _ _ _ (runs_perform _ _)).
  rewrite after_after. simpl. apply exec_bind_ret.
Qed.

Lemma foregroundChild_runs program args cb w :
  let n := next_id w in
  let i := (message_ids process + (length signals + n))%nat in
  let fn := if win32 then CrossSpawn else HostSpawn in
  runs (foregroundChild signals process win32 created program args cb) w
       (mkForeground (created fn program args (legacy_options process))
          (HangupListener i) (CloseListener (S i))
          (legacy_on_close process (detach_signals (signal_map n signals))
             (HangupListener i) (default default_handler cb)))
       (length signals + message_ids process + 2)
       (legacy_calls signals process win32 program args n).
Proof.
  intros n i fn. unfold foregroundChild, legacy_calls.
  destruct (has_send process) eqn:Hsend.
  - eapply runs_eq.
    + eapply runs_bind; [apply create_process_runs|].
      eapply runs_bind; [apply runs_perform|].
      eapply runs_bind; [apply proxySignals_runs|].
      eapply runs_bind; [apply proxyMessages_runs|].
      eapply runs_bind; [apply runs_fresh|].
      eapply runs_bind; [apply runs_perform|].
      eapply runs_bind; [apply runs_fresh|].
      eapply runs_bind; [apply runs_perform|].
      apply runs_ret.
    + reflexivity.
    + simpl. lia.
    + reflexivity.
  - eapply runs_eq.
    + eapply runs_bind; [apply create_process_runs|].
      eapply runs_bind; [apply runs_ret|].
      eapply runs_bind; [apply proxySignals_runs|].
      eapply runs_bind; [apply proxyMessages_runs|].
      eapply runs_bind; [apply runs_fresh|].
      eapply runs_bind; [apply runs_perform|].
      eapply runs_bind; [apply runs_fresh|].
      eapply runs_bind; [apply runs_perform|].
      apply runs_ret.
    + reflexivity.
    + simpl. lia.
    + reflexivity.
Qed.

End Entry.

(** *** The stdio policy *)

Lemma indexOf_from_found l x i :
  0 <= i -> x ∈ l -> 0 <= indexOf_from l x i.
Proof.
  revert i. induction l as [|y t IH]; intros i Hi Hx; simpl.
  - by apply elem_of_nil in Hx.
  - destruct (decide (y = x)) as [->|Hne]; [lia|].
    apply elem_of_cons in Hx as [->|Hx]; [done|].
    apply IH; [lia|done].
Qed.

Lemma indexOf_from_missing l x i : x ∉ l -> indexOf_from l x i = -1.
Proof.
  revert i. induction l as [|y t IH]; intros i Hx; simpl; [done|].
  apply not_elem_of_cons in Hx as [Hne Hx].
  destruct (decide (y = x)) as [->|_]; [done|]. by apply IH.
Qed.

Lemma indexOf_negative l x : (indexOf l x <? 0) = bool_decide (x ∉ l).
Proof.
  unfold indexOf. destruct (decide (x ∈ l)) as [Hin|Hout].
  - rewrite bool_decide_eq_false_2 by (intros H; by apply H).
    apply Z.ltb_ge. by apply indexOf_from_found.
  - rewrite bool_decide_eq_true_2 by done.
    by rewrite indexOf_from_missing.
Qed.

(** C7: [getStdio] is a function of its two arguments alone.  An absent
    base stands for "inherit"; without IPC the base comes back as it
    is; with IPC a mode string [s] becomes [[s, s, s, "ipc"]], a list
    without an "ipc" slot gets one at the end, and a list that has one
    comes back as it is. *)
Theorem C7_getStdio_policy :
  (forall withIpc,
      getStdio None withIpc = getStdio (Some (StdioString "inherit")) withIpc) /\
  getStdio None false = StdioString "inherit" /\
  getStdio None true =
    StdioArray [SMode "inherit"; SMode "inherit"; SMode "inherit"; SMode "ipc"] /\
  (forall base, getStdio (Some base) false = base) /\
  (forall s,
      getStdio (Some (StdioString s)) true =
      StdioArray [SMode s; SMode s; SMode s; SMode "ipc"]) /\
  (forall l,
      getStdio (Some (StdioArray l)) true =
      if decide (SMode "ipc" ∈ l)
      then StdioArray l
      else StdioArray (l ++ [SMode "ipc"])).
Proof.
  repeat split; try reflexivity.
  intros l. unfold getStdio; simpl. rewrite indexOf_negative.
  destruct (decide (SMode "ipc" ∈ l)) as [Hin|Hout].
  - rewrite bool_decide_eq_false_2; [done|]. intros H; by apply H.
  - by rewrite bool_decide_eq_true_2.
Qed.

(** *** Exit and signal mirroring on the modern path *)

(** C1: the close function [proxy] resolves with carries the child's
    exit code or signal; invoked after an exit with code [c] it calls
    [parent.exit(c)] and nothing else, and after a death by signal [s]
    it calls [parent.kill(parent.pid, s)], preceded only by the 200 ms
    timer when the parent is the real process. *)
Theorem C1_close_mirrors_child
    (signals : list Signal) (process parent : ProcessLike)
    (child : ChildProcess) (w w1 w2 : World) :
  let proxied := eval (proxy signals process parent child) w in
  (forall c : Z,
      let closeFn := eval (on_close proxied (Some c) None) w1 in
      code closeFn = Some c /\
      signal closeFn = None /\
      trace (call closeFn) w2 = [ParentExit (VNum c)]) /\
  (forall s : Signal,
      let closeFn := eval (on_close proxied None (Some s)) w1 in
      code closeFn = None /\
      signal closeFn = Some s /\
      trace (call closeFn) w2 =
        (if same_object parent process then [SetTimeout 200] else []) ++
        [ParentKill (pid parent) s] /\
      terminations (trace (call closeFn) w2) = [ParentKill (pid parent) s]).
Proof.
  intros proxied. subst proxied.
  rewrite (runs_eval _ _ _ _ _ (proxy_runs signals process parent child w)).
  cbn [on_close]. split.
  - intros c.
    rewrite (runs_eval _ _ _ _ _ (onClose_runs process parent child _ _ _ _ _ w1)).
    cbn [call code signal]. repeat split.
    by rewrite (runs_trace _ _ _ _ _ (close_body_runs process parent _ _ w2)).
  - intros s.
    rewrite (runs_eval _ _ _ _ _ (onClose_runs process parent child _ _ _ _ _ w1)).
    cbn [call code signal]. repeat split;
      rewrite (runs_trace _ _ _ _ _ (close_body_runs process parent _ _ w2)); simpl;
      [done|]. by destruct (same_object parent process).
Qed.

(** *** Which calls an operation makes *)

Lemma filter_relay_calls (f : Call -> bool) cs :
  (forall c, is_relay_call c = true -> f c = false) ->
  forallb is_relay_call cs = true ->
  List.filter f cs = [].
Proof.
  intros Hf. induction cs as [|c cs IH]; simpl; [done|].
  intros [Hc Hcs]%andb_prop. by rewrite (Hf c Hc), IH.
Qed.

Lemma on_calls_relay m : forallb is_relay_call (on_calls m) = true.
Proof. by induction m as [|[sig l] m IH]. Qed.

Lemma off_calls_relay m : forallb is_relay_call (off_calls m) = true.
Proof. by induction m as [|[sig l] m IH]. Qed.

Lemma pipe_calls_relay parent child :
  forallb is_relay_call (pipe_calls parent child) = true.
Proof.
  unfold pipe_calls.
  by destruct (child_stdout child), (child_stderr child), (child_stdin child).
Qed.

Lemma unpipe_calls_relay parent child :
  forallb is_relay_call (unpipe_calls parent child) = true.
Proof.
  unfold unpipe_calls.
  by destruct (child_stdout child), (child_stderr child), (child_stdin child).
Qed.

Lemma message_on_calls_relay parent n :
  forallb is_relay_call (message_on_calls parent n) = true.
Proof. unfold message_on_calls. by destruct (has_send parent). Qed.

Lemma message_off_calls_relay parent n :
  forallb is_relay_call (message_off_calls parent n) = true.
Proof. unfold message_off_calls. by destruct (has_send parent). Qed.

Lemma proxy_calls_relay signals parent child n :
  forallb is_relay_call (proxy_calls signals parent child n) = true.
Proof.
  unfold proxy_calls.
  by rewrite !forallb_app, on_calls_relay, pipe_calls_relay, message_on_calls_relay.
Qed.

Lemma teardown_calls_relay parent child m k l :
  forallb is_relay_call (teardown_calls parent child m k l) = true.
Proof.
  unfold teardown_calls.
  by rewrite !forallb_app, off_calls_relay, unpipe_calls_relay, message_off_calls_relay.
Qed.

Lemma relay_not_termination c : is_relay_call c = true -> is_termination c = false.
Proof. by destruct c. Qed.

Lemma relay_not_process_creation c :
  is_relay_call c = true -> is_process_creation c = false.
Proof. by destruct c. Qed.

Lemma relay_not_timer c : is_relay_call c = true -> is_timer c = false.
Proof. by destruct c. Qed.

Lemma relay_keeps_exitCode cs :
  forallb is_relay_call cs = true ->
  forallb (fun c => negb (sets_exitCode c)) cs = true.
Proof.
  induction cs as [|c cs IH]; simpl; [done|].
  intros [Hc Hcs]%andb_prop. rewrite IH by done. by destruct c.
Qed.

(** *** The options handed to the process-creation function *)

(** C8 (as the code has it): [spawn] calls the process-creation
    function once, first, with the caller's file; the options object it
    passes keeps every other field of the caller's options as it is,
    has [stdio] set to the result of [getStdio], and has [parent] and
    [spawn] as own keys with the value [undefined]: the two are
    overwritten, not removed.  A [parent] that is omitted or
    [undefined] is [process], such a [spawn] is Node's, omitted [args]
    are the empty list, and such a [stdio] counts as "inherit".  The
    relays are then attached to that parent and to the child that call
    returned. *)
Theorem C8_spawn_options
    (signals : list Signal) (process : ProcessLike)
    (created : SpawnFn -> string -> list string -> SpawnOptions -> ChildProcess)
    (file : string) (args : option (list string))
    (options : option SpawnOptions) (w : World) :
  let given := default empty_options options in
  let parent := default process (opt_parent given) in
  let fn := default HostSpawn (opt_spawn given) in
  exists passed : SpawnOptions,
    trace (spawn signals process created file args options) w =
      SpawnProcess fn file (default [] args) passed ::
      proxy_calls signals parent (created fn file (default [] args) passed) (next_id w) /\
    child (eval (spawn signals process created file args options) w) =
      created fn file (default [] args) passed /\
    (forall k : string, opt_fields passed !! k = opt_fields given !! k) /\
    parent_field passed = Undefined /\
    spawn_field passed = Undefined /\
    stdio_field passed =
      Present (getStdio (Some (default (StdioString "inherit") (opt_stdio given)))
                        (has_send parent)).
Proof.
  intros given parent fn. exists (spawn_options given parent).
  pose proof (spawn_runs signals process created file args options w) as H.
  cbv zeta in H. rewrite (runs_trace _ _ _ _ _ H), (runs_eval _ _ _ _ _ H).
  repeat split.
Qed.

(** C8, counterexample: on the sample host, the options object passed
    to the process-creation function has [parent] and [spawn] as own
    keys, both when the caller gave a [parent] and when the caller gave
    no options at all, in which case two keys were added to an object
    that had none. *)
Lemma C8_parent_and_spawn_stay_keys :
  let caller := mkSpawnOptions Absent (Present sample_parent) Absent ∅ in
  let passed options :=
    passed_options
      (trace (spawn sample_signals sample_process sample_created "cat" None options)
             sample_world) in
  exists with_parent without_options : SpawnOptions,
    passed (Some caller) = Some with_parent /\
    passed None = Some without_options /\
    has_key (parent_field with_parent) = true /\
    has_key (spawn_field with_parent) = true /\
    has_key (parent_field without_options) = true /\
    has_key (spawn_field without_options) = true /\
    has_key (parent_field empty_options) = false /\
    has_key (spawn_field empty_options) = false.
Proof. eexists _, _. vm_compute. repeat split. Qed.

(** *** The exit code of the legacy path *)

(** C4: when the child's "close" event fires, the legacy listener first
    stores a value in [process.exitCode] and only then calls the
    handler, which is the last thing it does.  The value is the child's
    exit code when there is no signal; when there is one it is [128 +
    signal] for the signal's name, that is the string "128" followed by
    the name, not a number. *)
Theorem C4_legacy_exit_code
    (signals : list Signal) (process : ProcessLike) (win32 : bool)
    (created : SpawnFn -> string -> list string -> SpawnOptions -> ChildProcess)
    (program : string) (args : list string) (cb : CloseHandler)
    (c : option Z) (s : option Signal) (w w1 : World) :
  let fg := eval (foregroundChild signals process win32 created program args (Some cb)) w in
  let stored :=
    match truthy s with
    | Some name => VStr ("128" +:+ name)
    | None => code_value c
    end in
  exists (done : CloseFn) (seen : World),
    exec (fg_on_close fg c s) w1 = exec (cb done) seen /\
    code done = c /\
    signal done = s /\
    exitCode seen = stored /\
    calls seen = calls w1 ++ [SetExitCode stored; CallHandler c s].
Proof.
  intros fg stored. subst fg.
  rewrite (runs_eval _ _ _ _ _
             (foregroundChild_runs signals process win32 created program args (Some cb) w)).
  cbn [fg_on_close]. rewrite legacy_on_close_exec.
  eexists _, _. split; [reflexivity|]. repeat split.
Qed.

(** The failing input of C4, on the sample host: the child is killed by
    SIGTERM; the handler is called with the string "128SIGTERM" in
    [process.exitCode], where 128 + 15 = 143 was meant. *)
Example legacy_exit_code_SIGTERM :
  let start := foregroundChild sample_signals sample_process false sample_created
                 "cat" [] (Some (fun _ => ret VUndefined)) in
  let closed :=
    exec (fg_on_close (eval start sample_world) None (Some "SIGTERM"))
         (exec start sample_world) in
  exitCode closed = VStr "128SIGTERM" /\
  exitCode closed <> VNum 143 /\
  trace (fg_on_close (eval start sample_world) None (Some "SIGTERM"))
        (exec start sample_world) =
    [SetExitCode (VStr "128SIGTERM"); CallHandler None (Some "SIGTERM")].
Proof. vm_compute. repeat split. discriminate. Qed.

(** *** What the handler's result does *)

Lemma terminations_app cs1 cs2 :
  terminations (cs1 ++ cs2) = terminations cs1 ++ terminations cs2.
Proof. apply List.filter_app. Qed.

Lemma terminations_relay cs : forallb is_relay_call cs = true -> terminations cs = [].
Proof. apply filter_relay_calls, relay_not_termination. Qed.

Lemma terminations_legacy_close_calls process m l s v :
  terminations (legacy_close_calls process m l s v) =
  match truthy s with
  | Some name => [ParentKill (pid process) name]
  | None => [ParentExit v]
  end.
Proof.
  unfold legacy_close_calls.
  rewrite terminations_app, (terminations_relay _ (off_calls_relay m)).
  by destruct (truthy s).
Qed.

Lemma terminations_close_calls process parent c s :
  terminations (close_calls process parent c s) =
  match s with
  | Some name => [ParentKill (pid parent) name]
  | None => [ParentExit (code_value c)]
  end.
Proof.
  unfold close_calls. destruct s; [|done]. by destruct (same_object parent process).
Qed.

(** The legacy listener with a handler that invokes the close function
    [n] times and returns [v]. *)
Lemma legacy_on_close_invoking process m l c s v w :
  exec (legacy_on_close process (detach_signals m) l
          (fun done => call done ;; ret v) c s) w =
  after 0 ([SetExitCode (legacy_exit_code c s); CallHandler c s] ++
           legacy_close_calls process m l s (legacy_exit_code c s)) w.
Proof.
  rewrite legacy_on_close_exec. cbn [call].
  rewrite exec_bind_ret.
  rewrite (runs_exec _ _ _ _ _ (legacy_close_body_runs process m l s _)).
  by rewrite after_after.
Qed.

(** C2 (as the code has it): the legacy path drops what the handler
    returns.  A handler that returns [v] without invoking the close
    function leaves the parent running; one that invokes it and returns
    [v] terminates the parent as computed from the child, whatever [v]
    is; nothing runs after the handler.  The modern path takes no
    handler: resolving the promise terminates nothing. *)
Theorem C2_handler_result_is_dropped
    (signals : list Signal) (process : ProcessLike) (win32 : bool)
    (created : SpawnFn -> string -> list string -> SpawnOptions -> ChildProcess)
    (program : string) (args : list string)
    (c : option Z) (s : option Signal) (v : Val) (w w1 : World) :
  let fg cb :=
    eval (foregroundChild signals process win32 created program args (Some cb)) w in
  terminations (trace (fg_on_close (fg (fun _ => ret v)) c s) w1) = [] /\
  terminations (trace (fg_on_close (fg (fun done => call done ;; ret v)) c s) w1) =
    match truthy s with
    | Some name => [ParentKill (pid process) name]
    | None => [ParentExit (code_value c)]
    end /\
  (forall cb : CloseHandler,
      exists done : CloseFn,
        exec (fg_on_close (fg cb) c s) w1 =
        exec (cb done)
             (after 0 [SetExitCode (legacy_exit_code c s); CallHandler c s] w1) /\
        code done = c /\ signal done = s) /\
  (forall parent child,
      terminations
        (trace (on_close (eval (proxy signals process parent child) w) c s) w1) = []).
Proof.
  intros fg. subst fg. cbv beta.
  repeat split.
  - rewrite (runs_eval _ _ _ _ _ (foregroundChild_runs _ _ _ _ _ _ _ w)).
    cbn [fg_on_close default from_option id].
    erewrite exec_trace; [|rewrite legacy_on_close_exec; reflexivity].
    reflexivity.
  - rewrite (runs_eval _ _ _ _ _ (foregroundChild_runs _ _ _ _ _ _ _ w)).
    cbn [fg_on_close default from_option id].
    erewrite exec_trace; [|apply legacy_on_close_invoking].
    rewrite terminations_app, terminations_legacy_close_calls. simpl.
    unfold legacy_exit_code. by destruct (truthy s).
  - intros cb.
    rewrite (runs_eval _ _ _ _ _ (foregroundChild_runs _ _ _ _ _ _ _ w)).
    cbn [fg_on_close default from_option id].
    eexists. rewrite legacy_on_close_exec. split; [reflexivity|]. by split.
  - intros parent child.
    rewrite (runs_eval _ _ _ _ _ (proxy_runs signals process parent child w)).
    cbn [on_close].
    rewrite (runs_trace _ _ _ _ _ (onClose_runs process parent child _ _ _ _ _ w1)).
    rewrite terminations_app, (terminations_relay _ (teardown_calls_relay _ _ _ _ _)).
    reflexivity.
Qed.

(** C2, counterexample: the child exits with code 0 and the handler
    returns 2, the string "SIGTERM" or [undefined] without invoking the
    close function; the parent gets no [exit] and no [kill] at all. *)
Lemma C2_returned_value_terminates_nothing :
  let run v :=
    let start := foregroundChild sample_signals sample_process false sample_created
                   "cat" [] (Some (fun _ => ret v)) in
    calls (exec (fg_on_close (eval start sample_world) (Some 0) None)
                (exec start sample_world)) in
  terminations (run (VNum 2)) = [] /\
  ~ In (ParentExit (VNum 2)) (run (VNum 2)) /\
  ~ In (ParentKill 100 "SIGTERM") (run (VStr "SIGTERM")) /\
  ~ In (ParentExit (VNum 0)) (run VUndefined).
Proof.
  cbv zeta. split; [reflexivity|].
  split; [|split]; vm_compute; intuition discriminate.
Qed.

(** *** Processes and timers started at spawn *)

Lemma legacy_calls_split signals process win32 program args n :
  exists rest,
    legacy_calls signals process win32 program args n =
      SpawnProcess (if win32 then CrossSpawn else HostSpawn) program args
                   (legacy_options process) :: rest /\
    forallb is_relay_call rest = true /\
    In (ParentOn EvExit (HangupListener (message_ids process + (length signals + n)))) rest.
Proof.
  unfold legacy_calls. eexists. split; [reflexivity|]. split.
  - rewrite !forallb_app, on_calls_relay, message_on_calls_relay.
    by destruct (has_send process).
  - rewrite !in_app_iff. do 3 right. by left.
Qed.

Lemma proxy_calls_exit_listener signals parent child n :
  In (ParentOn EvExit (HangupListener (message_ids parent + (length signals + n))))
     (proxy_calls signals parent child n).
Proof. unfold proxy_calls. rewrite !in_app_iff. do 3 right. by left. Qed.

(** C3 (as the code has it): a spawn creates one process, the child,
    on either path, and starts no timer.  What it installs against the
    parent's death is a listener on the parent's "exit" event that
    sends SIGHUP to the child. *)
Theorem C3_only_the_child_is_created
    (signals : list Signal) (process : ProcessLike) (win32 : bool)
    (created : SpawnFn -> string -> list string -> SpawnOptions -> ChildProcess)
    (file : string) (args : option (list string)) (options : option SpawnOptions)
    (program : string) (largs : list string) (cb : option CloseHandler)
    (message : Val) (w : World) :
  let given := default empty_options options in
  let parent := default process (opt_parent given) in
  let modern := spawn signals process created file args options in
  let legacy := foregroundChild signals process win32 created program largs cb in
  process_creations (trace modern w) =
    [SpawnProcess (default HostSpawn (opt_spawn given)) file (default [] args)
                  (spawn_options given parent)] /\
  process_creations (trace legacy w) =
    [SpawnProcess (if win32 then CrossSpawn else HostSpawn) program largs
                  (legacy_options process)] /\
  List.filter is_timer (trace modern w) = [] /\
  List.filter is_timer (trace legacy w) = [] /\
  In (ParentOn EvExit (exit_listener (close (eval modern w)))) (trace modern w) /\
  In (ParentOn EvExit (fg_exit_listener (eval legacy w))) (trace legacy w) /\
  fire (exit_listener (close (eval modern w))) message = perform (ChildKill "SIGHUP") /\
  fire (fg_exit_listener (eval legacy w)) message = perform (ChildKill "SIGHUP").
Proof.
  intros given parent modern legacy. subst modern legacy.
  pose proof (spawn_runs signals process created file args options w) as Hm.
  pose proof (foregroundChild_runs signals process win32 created program largs cb w) as Hl.
  cbv zeta in Hm, Hl.
  rewrite (runs_trace _ _ _ _ _ Hm), (runs_eval _ _ _ _ _ Hm).
  rewrite (runs_trace _ _ _ _ _ Hl), (runs_eval _ _ _ _ _ Hl).
  destruct (legacy_calls_split signals process win32 program largs (next_id w))
    as (rest & -> & Hrest & Hin).
  cbn [close exit_listener fg_exit_listener fire].
  repeat split.
  - unfold process_creations. cbn [List.filter is_process_creation].
    rewrite (filter_relay_calls _ _ relay_not_process_creation
               (proxy_calls_relay _ _ _ _)). reflexivity.
  - unfold process_creations. cbn [List.filter is_process_creation].
    by rewrite (filter_relay_calls _ _ relay_not_process_creation Hrest).
  - cbn [List.filter is_timer].
    apply (filter_relay_calls _ _ relay_not_timer), proxy_calls_relay.
  - cbn [List.filter is_timer].
    by apply (filter_relay_calls _ _ relay_not_timer).
  - right. apply proxy_calls_exit_listener.
  - by right.
Qed.

(** C3, counterexample: a spawn on the sample host creates exactly one
    process and starts no timer, on either path: there is no helper
    process and no 500 ms grace period. *)
Lemma C3_spawn_starts_no_watchdog :
  let modern :=
    trace (spawn sample_signals sample_process sample_created "cat" None None)
          sample_world in
  let legacy :=
    trace (foregroundChild sample_signals sample_process false sample_created
             "cat" [] None) sample_world in
  length (process_creations modern) = 1%nat /\
  length (process_creations legacy) = 1%nat /\
  List.filter is_timer modern = [] /\
  List.filter is_timer legacy = [].
Proof. vm_compute. repeat split. Qed.

(** *** Invoking the close function again *)

Lemma legacy_close_calls_keep_exitCode process m l s v :
  forallb (fun c => negb (sets_exitCode c)) (legacy_close_calls process m l s v) = true.
Proof.
  unfold legacy_close_calls.
  rewrite forallb_app, (relay_keeps_exitCode _ (off_calls_relay m)).
  by destruct (truthy s).
Qed.

Lemma legacy_on_close_invoking_twice process m l c s v w :
  exec (legacy_on_close process (detach_signals m) l
          (fun done => call done ;; call done ;; ret v) c s) w =
  after 0 ([SetExitCode (legacy_exit_code c s); CallHandler c s] ++
           legacy_close_calls process m l s (legacy_exit_code c s) ++
           legacy_close_calls process m l s (legacy_exit_code c s)) w.
Proof.
  rewrite legacy_on_close_exec. cbn [call].
  rewrite (exec_bind_runs _ _ _ _ _ _ (legacy_close_body_runs process m l s _)).
  rewrite exec_bind_ret.
  rewrite (runs_exec _ _ _ _ _ (legacy_close_body_runs process m l s _)).
  rewrite (exitCode_after _ _ _ (legacy_close_calls_keep_exitCode _ _ _ _ _)).
  by rewrite !after_after.
Qed.

(** C9 (as the code has it): a close function has no guard.  Invoking
    it again makes the same calls again, so a parent whose [exit] and
    [kill] return gets the termination request a second time, on the
    modern path and on the legacy path. *)
Theorem C9_close_function_repeats
    (signals : list Signal) (process parent : ProcessLike) (win32 : bool)
    (created : SpawnFn -> string -> list string -> SpawnOptions -> ChildProcess)
    (child : ChildProcess) (program : string) (args : list string)
    (c : option Z) (s : option Signal) (v : Val) (w w1 w2 : World) :
  let closeFn :=
    eval (on_close (eval (proxy signals process parent child) w) c s) w1 in
  let fg :=
    eval (foregroundChild signals process win32 created program args
            (Some (fun done => call done ;; call done ;; ret v))) w in
  let modern :=
    match s with
    | Some name => [ParentKill (pid parent) name]
    | None => [ParentExit (code_value c)]
    end in
  let legacy :=
    match truthy s with
    | Some name => [ParentKill (pid process) name]
    | None => [ParentExit (code_value c)]
    end in
  trace (call closeFn ;; call closeFn) w2 =
    trace (call closeFn) w2 ++ trace (call closeFn) w2 /\
  terminations (trace (call closeFn) w2) = modern /\
  terminations (trace (call closeFn ;; call closeFn) w2) = modern ++ modern /\
  terminations (trace (fg_on_close fg c s) w1) = legacy ++ legacy.
Proof.
  intros closeFn fg modern legacy. subst closeFn fg modern legacy.
  rewrite (runs_eval _ _ _ _ _ (proxy_runs signals process parent child w)).
  cbn [on_close].
  rewrite (runs_eval _ _ _ _ _ (onClose_runs process parent child _ _ _ _ _ w1)).
  cbn [call].
  rewrite (runs_eval _ _ _ _ _ (foregroundChild_runs _ _ _ _ _ _ _ w)).
  cbn [fg_on_close default from_option id].
  assert (trace (close_body process parent c s ;; close_body process parent c s) w2 =
          close_calls process parent c s ++ close_calls process parent c s) as Htwice.
  { apply (runs_trace _ _ tt 0%nat).
    eapply runs_eq; [eapply runs_bind; apply close_body_runs|..]; reflexivity. }
  rewrite Htwice, (runs_trace _ _ _ _ _ (close_body_runs process parent c s w2)).
  rewrite terminations_app, terminations_close_calls.
  repeat split.
  erewrite exec_trace; [|apply legacy_on_close_invoking_twice].
  rewrite !terminations_app, !terminations_legacy_close_calls. simpl.
  unfold legacy_exit_code. by destruct (truthy s).
Qed.

(** C9, counterexample: the child exits with code 0; invoking the close
    function of [proxy] twice on the sample parent calls [exit(0)]
    twice, one call more than a single invocation. *)
Lemma C9_second_invocation_exits_again :
  let child := sample_created HostSpawn "cat" [] empty_options in
  let start := proxy sample_signals sample_process sample_parent child in
  let closed := on_close (eval start sample_world) (Some 0) None in
  let closeFn := eval closed (exec start sample_world) in
  let w := exec closed (exec start sample_world) in
  terminations (trace (call closeFn) w) = [ParentExit (VNum 0)] /\
  terminations (trace (call closeFn ;; call closeFn) w) =
    [ParentExit (VNum 0); ParentExit (VNum 0)] /\
  terminations (trace (call closeFn ;; call closeFn) w) <>
    terminations (trace (call closeFn) w).
Proof. vm_compute. repeat split. discriminate. Qed.

(** *** The order of teardown, hand-over and termination *)

Lemma handover_after_relay cs :
  forallb is_relay_call cs = true ->
  forall post, teardown_before_handover (cs ++ post) = teardown_before_handover post.
Proof.
  induction cs as [|c cs IH]; simpl; [done|].
  intros [Hc Hcs]%andb_prop post. rewrite <- (IH Hcs post). by destruct c.
Qed.

Lemma exit_removed_after_relay l cs post :
  forallb is_relay_call cs = true ->
  exit_removed_before_termination l (cs ++ ParentRemoveListener EvExit l :: post) = true.
Proof.
  induction cs as [|c cs IH]; simpl.
  - intros _. by rewrite bool_decide_eq_true_2.
  - intros [Hc Hcs]%andb_prop.
    destruct (removes_exit_listener l c); [done|].
    rewrite (relay_not_termination c Hc). by apply IH.
Qed.

Lemma teardown_calls_are_teardown parent child m k l :
  forallb is_teardown (teardown_calls parent child m k l) = true.
Proof.
  unfold teardown_calls, message_off_calls, unpipe_calls.
  rewrite !forallb_app, off_calls_are_teardown.
  by destruct (has_send parent), (child_stdout child), (child_stderr child),
    (child_stdin child).
Qed.

(** C6 (as the code has it): on the modern path every teardown call,
    the removal of the parent's "exit" listener last, comes before the
    promise is resolved with the close function, and so before any
    termination.  On the legacy path the handler is called first, with
    the relays still attached; the close function removes the signal
    listeners and the "exit" listener itself, each time it is invoked,
    before it terminates the parent.  On both paths the "exit" listener
    is removed before the parent is terminated. *)
Theorem C6_teardown_order
    (signals : list Signal) (process parent : ProcessLike) (win32 : bool)
    (created : SpawnFn -> string -> list string -> SpawnOptions -> ChildProcess)
    (child : ChildProcess) (program : string) (args : list string)
    (c : option Z) (s : option Signal) (w w1 : World) :
  let proxied := eval (proxy signals process parent child) w in
  let closed := on_close proxied c s in
  let fg := eval (foregroundChild signals process win32 created program args None) w in
  (exists teardown,
      trace closed w1 =
        teardown ++
        [ParentRemoveListener EvExit (exit_listener proxied); ResolveClose c s] /\
      forallb is_teardown teardown = true) /\
  teardown_before_handover (trace closed w1) = true /\
  exit_removed_before_termination (exit_listener proxied)
    (trace (let* closeFn := closed in call closeFn) w1) = true /\
  (exists teardown,
      trace (fg_on_close fg c s) w1 =
        [SetExitCode (legacy_exit_code c s); CallHandler c s] ++
        teardown ++
        [ParentRemoveListener EvExit (fg_exit_listener fg)] ++
        match truthy s with
        | Some name => [SetTimeout 200; ParentKill (pid process) name]
        | None => [ParentExit (legacy_exit_code c s)]
        end /\
      forallb is_teardown teardown = true) /\
  exit_removed_before_termination (fg_exit_listener fg)
    (trace (fg_on_close fg c s) w1) = true.
Proof.
  intros proxied closed fg. subst proxied closed fg.
  rewrite (runs_eval _ _ _ _ _ (proxy_runs signals process parent child w)).
  rewrite (runs_eval _ _ _ _ _ (foregroundChild_runs _ _ _ _ _ _ _ w)).
  cbn [on_close exit_listener fg_on_close fg_exit_listener default from_option id].
  set (n := next_id w).
  set (i := (message_ids parent + (length signals + n))%nat).
  set (j := (message_ids process + (length signals + n))%nat).
  set (m := signal_map n signals).
  pose proof (onClose_runs process parent child m (length signals + n)
                (HangupListener i) c s w1) as Hclose.
  rewrite (runs_trace _ _ _ _ _ Hclose).
  assert (trace (let* closeFn :=
                   onClose process parent (detach_signals m) (unproxyStreams parent child)
                     (unproxyMessages parent (length signals + n)) (HangupListener i) c s
                 in call closeFn) w1 =
          (teardown_calls parent child m (length signals + n) (HangupListener i) ++
           [ResolveClose c s]) ++ close_calls process parent c s) as ->.
  { apply (runs_trace _ _ tt 0%nat).
    eapply runs_eq; [eapply runs_bind; [apply Hclose|apply close_body_runs]|..];
      reflexivity. }
  erewrite (exec_trace (legacy_on_close _ _ _ _ _ _));
    [|apply legacy_on_close_invoking].
  unfold teardown_calls, legacy_close_calls.
  repeat split.
  - exists (message_off_calls parent (length signals + n) ++
            unpipe_calls parent child ++ off_calls m).
    split; [by rewrite <- !app_assoc|].
    pose proof (teardown_calls_are_teardown parent child m (length signals + n)
                  (HangupListener i)) as H.
    unfold teardown_calls in H. rewrite !forallb_app in *.
    repeat (apply andb_prop in H as [? H]). by repeat (apply andb_true_intro; split).
  - rewrite handover_after_relay; [done|].
    apply (teardown_calls_relay parent child m (length signals + n) (HangupListener i)).
  - rewrite <- !app_assoc.
    rewrite (app_assoc (message_off_calls _ _)), (app_assoc (_ ++ _) (off_calls m)).
    apply exit_removed_after_relay.
    by rewrite !forallb_app, message_off_calls_relay, unpipe_calls_relay, off_calls_relay.
  - exists (off_calls m). split; [reflexivity|apply off_calls_are_teardown].
  - change (exit_removed_before_termination (HangupListener j)
              (off_calls m ++ ParentRemoveListener EvExit (HangupListener j) ::
               match truthy s with
               | Some name => [SetTimeout 200; ParentKill (pid process) name]
               | None => [ParentExit (legacy_exit_code c s)]
               end) = true).
    apply exit_removed_after_relay, off_calls_relay.
Qed.

(** C6, counterexample: on the legacy path with the default handler,
    the handler is called with the close function before any listener
    is removed; the removals come after. *)
Lemma C6_legacy_hands_over_before_teardown :
  let start := foregroundChild sample_signals sample_process false sample_created
                 "cat" [] None in
  let t := trace (fg_on_close (eval start sample_world) (Some 0) None)
                 (exec start sample_world) in
  t = [SetExitCode (VNum 0);
       CallHandler (Some 0) None;
       ParentRemoveListener (EvSignal "SIGHUP") (SignalListener 2 "SIGHUP");
       ParentRemoveListener (EvSignal "SIGINT") (SignalListener 3 "SIGINT");
       ParentRemoveListener (EvSignal "SIGTERM") (SignalListener 4 "SIGTERM");
       ParentRemoveListener EvExit (HangupListener 7);
       ParentExit (VNum 0)] /\
  teardown_before_handover t = false.
Proof. vm_compute. by split. Qed.

(** *** Removing listeners and pipes *)

Section Removal.

Context {A : Type} `{EqDecision A}.

Lemma remove_first_absent (x : A) l : x ∉ l -> remove_first x l = l.
Proof.
  induction l as [|y t IH]; simpl; [done|].
  intros [Hne Ht]%not_elem_of_cons.
  destruct (decide (y = x)) as [->|_]; [done|]. by rewrite IH.
Qed.

Lemma remove_first_middle (x : A) l1 l2 :
  x ∉ l1 -> remove_first x (l1 ++ x :: l2) = l1 ++ l2.
Proof.
  induction l1 as [|y t IH]; simpl.
  - intros _. by rewrite decide_True.
  - intros [Hne Ht]%not_elem_of_cons.
    destruct (decide (y = x)) as [->|_]; [done|]. by rewrite IH.
Qed.

Lemma not_elem_of_rev (x : A) l : x ∉ l -> x ∉ rev l.
Proof. intros H Hin. apply H. apply list_elem_of_In, in_rev, list_elem_of_In, Hin. Qed.

Lemma remove_last_absent (x : A) l : x ∉ l -> remove_last x l = l.
Proof.
  intros H. unfold remove_last.
  by rewrite remove_first_absent, rev_involutive by by apply not_elem_of_rev.
Qed.

Lemma remove_last_middle (x : A) l1 l2 :
  x ∉ l2 -> remove_last x (l1 ++ x :: l2) = l1 ++ l2.
Proof.
  intros H. unfold remove_last.
  rewrite rev_app_distr. simpl. rewrite <- app_assoc. simpl.
  rewrite remove_first_middle by by apply not_elem_of_rev.
  by rewrite rev_app_distr, !rev_involutive.
Qed.

Lemma remove_last_end (x : A) l : remove_last x (l ++ [x]) = l.
Proof.
  rewrite (remove_last_middle x l []); [by rewrite app_nil_r|]. apply not_elem_of_nil.
Qed.

End Removal.

Lemma remove_each_absent xs e :
  Forall (fun x => x ∉ e) xs -> remove_each xs e = e.
Proof.
  unfold remove_each. induction 1 as [|x xs Hx _ IH]; simpl; [done|].
  by rewrite remove_last_absent.
Qed.

Lemma remove_each_middle xs l r :
  NoDup (xs ++ r) -> remove_each xs (l ++ xs ++ r) = l ++ r.
Proof.
  unfold remove_each. revert l. induction xs as [|x xs IH]; intros l Hnd; simpl; [done|].
  simpl in Hnd. apply NoDup_cons in Hnd as [Hx Hnd].
  rewrite remove_last_middle by done. by apply IH.
Qed.

Lemma remove_pipes_absent (ps p : list (Stream * Stream)) :
  Forall (fun x => x ∉ p) ps ->
  fold_left (fun p x => remove_first x p) ps p = p.
Proof.
  induction 1 as [|x xs Hx _ IH]; simpl; [done|]. by rewrite remove_first_absent.
Qed.

Lemma remove_pipes_added (ps p : list (Stream * Stream)) :
  Forall (fun x => x ∉ p) ps ->
  fold_left (fun p x => remove_first x p) ps (p ++ ps) = p.
Proof.
  induction 1 as [|x xs Hx _ IH]; simpl; [by rewrite app_nil_r|].
  by rewrite remove_first_middle.
Qed.

(** *** The tables after each group of calls *)

Lemma parent_on_calls m e :
  fold_left (fun e c => parent_step c e) (on_calls m) e = e ++ signal_entries m.
Proof.
  revert e. induction m as [|[sig l] m IH]; intros e; simpl; [by rewrite app_nil_r|].
  rewrite IH. unfold emitter_on. by rewrite <- app_assoc.
Qed.

Lemma parent_off_calls m e :
  fold_left (fun e c => parent_step c e) (off_calls m) e =
  remove_each (signal_entries m) e.
Proof.
  revert e. induction m as [|[sig l] m IH]; intros e; simpl; [done|]. by rewrite IH.
Qed.

Lemma parent_stream_calls parent child e :
  fold_left (fun e c => parent_step c e) (pipe_calls parent child) e = e /\
  fold_left (fun e c => parent_step c e) (unpipe_calls parent child) e = e.
Proof.
  unfold pipe_calls, unpipe_calls.
  by destruct (child_stdout child), (child_stderr child), (child_stdin child).
Qed.

Lemma parent_message_on_calls parent n e :
  fold_left (fun e c => parent_step c e) (message_on_calls parent n) e =
  e ++ parent_message_entry parent n.
Proof.
  unfold message_on_calls, parent_message_entry.
  destruct (has_send parent); simpl; [done|by rewrite app_nil_r].
Qed.

Lemma parent_message_off_calls parent n e :
  fold_left (fun e c => parent_step c e) (message_off_calls parent n) e =
  remove_each (parent_message_entry parent n) e.
Proof. unfold message_off_calls, parent_message_entry. by destruct (has_send parent). Qed.

Lemma child_signal_calls m e :
  fold_left (fun e c => child_step c e) (on_calls m) e = e /\
  fold_left (fun e c => child_step c e) (off_calls m) e = e.
Proof. split; revert e; induction m as [|[sig l] m IH]; intros e; simpl; auto. Qed.

Lemma child_stream_calls parent child e :
  fold_left (fun e c => child_step c e) (pipe_calls parent child) e = e /\
  fold_left (fun e c => child_step c e) (unpipe_calls parent child) e = e.
Proof.
  unfold pipe_calls, unpipe_calls.
  by destruct (child_stdout child), (child_stderr child), (child_stdin child).
Qed.

Lemma child_message_on_calls parent n e :
  fold_left (fun e c => child_step c e) (message_on_calls parent n) e =
  e ++ child_message_entry parent n.
Proof.
  unfold message_on_calls, child_message_entry.
  destruct (has_send parent); simpl; [done|by rewrite app_nil_r].
Qed.

Lemma child_message_off_calls parent n e :
  fold_left (fun e c => child_step c e) (message_off_calls parent n) e =
  remove_each (child_message_entry parent n) e.
Proof. unfold message_off_calls, child_message_entry. by destruct (has_send parent). Qed.

Lemma pipes_signal_calls m p :
  fold_left (fun p c => pipe_step c p) (on_calls m) p = p /\
  fold_left (fun p c => pipe_step c p) (off_calls m) p = p.
Proof. split; revert p; induction m as [|[sig l] m IH]; intros p; simpl; auto. Qed.

Lemma pipes_message_calls parent n p :
  fold_left (fun p c => pipe_step c p) (message_on_calls parent n) p = p /\
  fold_left (fun p c => pipe_step c p) (message_off_calls parent n) p = p.
Proof. unfold message_on_calls, message_off_calls. by destruct (has_send parent). Qed.

Lemma pipes_pipe_calls parent child p :
  fold_left (fun p c => pipe_step c p) (pipe_calls parent child) p =
  p ++ stream_pairs parent child.
Proof.
  unfold pipe_calls, stream_pairs.
  destruct (child_stdout child), (child_stderr child), (child_stdin child); simpl;
    rewrite <- ?app_assoc, ?app_nil_r; reflexivity.
Qed.

Lemma pipes_unpipe_calls parent child p :
  fold_left (fun p c => pipe_step c p) (unpipe_calls parent child) p =
  fold_left (fun p x => remove_first x p) (stream_pairs parent child) p.
Proof.
  unfold unpipe_calls, stream_pairs.
  by destruct (child_stdout child), (child_stderr child), (child_stdin child).
Qed.

(** The three tables once [proxy] has attached everything. *)
Lemma proxy_calls_tables signals parent child n k w :
  let i := (message_ids parent + (length signals + n))%nat in
  let w' := after k (proxy_calls signals parent child n) w in
  parent_listeners w' =
    parent_listeners w ++
    signal_entries (signal_listeners n signals) ++
    parent_message_entry parent (length signals + n) ++
    [(EvExit, HangupListener i)] /\
  child_listeners w' =
    child_listeners w ++
    child_message_entry parent (length signals + n) ++
    [(EvClose, CloseListener (S i))] /\
  pipes w' = pipes w ++ stream_pairs parent child.
Proof.
  intros i w'. subst w'. unfold after, proxy_calls. cbn [parent_listeners child_listeners pipes].
  rewrite !fold_left_app.
  rewrite parent_on_calls, (proj1 (parent_stream_calls _ _ _)), parent_message_on_calls.
  rewrite (proj1 (child_signal_calls _ _)), (proj1 (child_stream_calls _ _ _)),
    child_message_on_calls.
  rewrite (proj1 (pipes_signal_calls _ _)), pipes_pipe_calls,
    (proj1 (pipes_message_calls _ _ _)).
  simpl. unfold emitter_on. rewrite <- !app_assoc. done.
Qed.

Lemma other_calls_tables cs :
  forallb (fun c => negb (is_relay_call c)) cs = true ->
  (forall e, fold_left (fun e c => parent_step c e) cs e = e) /\
  (forall e, fold_left (fun e c => child_step c e) cs e = e) /\
  (forall p, fold_left (fun p c => pipe_step c p) cs p = p).
Proof.
  induction cs as [|x cs IH]; simpl; [done|].
  intros [Hx Hcs]%andb_prop. destruct (IH Hcs) as (Hp & Hc & Hpi).
  destruct x; try discriminate; simpl; auto.
Qed.

(** The three tables once [onClose] has made its teardown calls. *)
Lemma teardown_calls_tables parent child m n l k cs w :
  let w' := after k (teardown_calls parent child m n l ++ cs) w in
  forallb (fun c => negb (is_relay_call c)) cs = true ->
  parent_listeners w' =
    remove_last (EvExit, l)
      (remove_each (signal_entries m)
         (remove_each (parent_message_entry parent n) (parent_listeners w))) /\
  child_listeners w' =
    remove_each (child_message_entry parent n) (child_listeners w) /\
  pipes w' =
    fold_left (fun p x => remove_first x p) (stream_pairs parent child) (pipes w).
Proof.
  intros w' Hcs. subst w'. unfold after, teardown_calls.
  cbn [parent_listeners child_listeners pipes].
  rewrite !fold_left_app.
  rewrite parent_message_off_calls, (proj2 (parent_stream_calls _ _ _)), parent_off_calls.
  rewrite child_message_off_calls, (proj2 (child_stream_calls _ _ _)),
    (proj2 (child_signal_calls _ _)).
  rewrite (proj2 (pipes_message_calls _ _ _)), pipes_unpipe_calls,
    (proj2 (pipes_signal_calls _ _)).
  simpl.
  destruct (other_calls_tables cs Hcs) as (Hp & Hc & Hpi).
  by rewrite Hp, Hc, Hpi.
Qed.

(** *** The signal listeners are new and pairwise different *)

Lemma map_set_new k v (m : SignalMap) :
  k ∉ map fst m -> map_set k v m = m ++ [(k, v)].
Proof.
  induction m as [|[k' v'] m IH]; simpl; [done|].
  intros [Hne Hm]%not_elem_of_cons.
  destruct (decide (k' = k)) as [->|_]; [done|]. by rewrite IH.
Qed.

Lemma signal_listeners_keys n sigs : map fst (signal_listeners n sigs) = sigs.
Proof. revert n. induction sigs as [|s sigs IH]; intros n; simpl; [done|]. by rewrite IH. Qed.

Lemma signal_map_fold n sigs (m : SignalMap) :
  NoDup sigs ->
  Forall (fun s => s ∉ map fst m) sigs ->
  fold_left (fun m p => map_set p.1 p.2 m) (signal_listeners n sigs) m =
  m ++ signal_listeners n sigs.
Proof.
  revert n m. induction sigs as [|s sigs IH]; intros n m Hnd Hm; simpl.
  - by rewrite app_nil_r.
  - apply NoDup_cons in Hnd as [Hs Hnd].
    apply Forall_cons in Hm as [Hsm Hm].
    rewrite map_set_new by done.
    rewrite IH; [by rewrite <- app_assoc|done|].
    apply Forall_forall. intros s' Hs'.
    rewrite map_app. simpl. apply not_elem_of_app. split.
    + revert s' Hs'. by apply Forall_forall.
    + intros [->|[]%elem_of_nil]%elem_of_cons. done.
Qed.

(** Without duplicates in [signalExit.signals()], the [Map] holds every
    listener the loop registered, in order. *)
Lemma signal_map_NoDup n sigs : NoDup sigs -> signal_map n sigs = signal_listeners n sigs.
Proof.
  intros Hnd. unfold signal_map. rewrite signal_map_fold; [done|done|].
  apply Forall_forall. intros s _. apply not_elem_of_nil.
Qed.

Lemma signal_entries_inv n sigs x :
  x ∈ signal_entries (signal_listeners n sigs) ->
  exists id s, x = (EvSignal s, SignalListener id s) /\ (n <= id < n + length sigs)%nat.
Proof.
  revert n. induction sigs as [|s sigs IH]; intros n; simpl.
  - by intros ?%elem_of_nil.
  - intros [->|Hx]%elem_of_cons.
    + exists n, s. split; [done|lia].
    + destruct (IH _ Hx) as (id & s' & -> & Hid). exists id, s'. split; [done|lia].
Qed.

Lemma signal_entries_NoDup n sigs : NoDup (signal_entries (signal_listeners n sigs)).
Proof.
  revert n. induction sigs as [|s sigs IH]; intros n; simpl.
  - apply NoDup_nil_2.
  - apply NoDup_cons. split; [|apply IH].
    intros (id & s' & [= _ Hid _] & Hrange)%signal_entries_inv. lia.
Qed.

Lemma known_absent (e : Emitter) n x :
  Forall (fun p => (listener_id p.2 < n)%nat) e -> (n <= listener_id x.2)%nat -> x ∉ e.
Proof.
  intros He Hx Hin. rewrite Forall_forall in He. specialize (He _ Hin). lia.
Qed.

Lemma signal_entries_absent (e : Emitter) n sigs :
  Forall (fun p => (listener_id p.2 < n)%nat) e ->
  Forall (fun x => x ∉ e) (signal_entries (signal_listeners n sigs)).
Proof.
  intros He. apply Forall_forall. intros x (id & s & -> & Hid)%signal_entries_inv.
  apply (known_absent e n); [done|simpl; lia].
Qed.

(** Everything [proxy] and [foregroundChild] add to the parent's table
    is pairwise different. *)
Lemma attached_NoDup n sigs parent k i :
  NoDup (signal_entries (signal_listeners n sigs) ++
         parent_message_entry parent k ++ [(EvExit, HangupListener i)]).
Proof.
  apply NoDup_app. split; [apply signal_entries_NoDup|]. split.
  - intros x (id & s & -> & _)%signal_entries_inv.
    unfold parent_message_entry. destruct (has_send parent); simpl.
    + intros [[=]|[[=]|[]%elem_of_nil]%elem_of_cons]%elem_of_cons.
    + intros [[=]|[]%elem_of_nil]%elem_of_cons.
  - unfold parent_message_entry. destruct (has_send parent); simpl.
    + apply NoDup_cons. split; [|apply NoDup_singleton].
      intros [[=]|[]%elem_of_nil]%elem_of_cons.
    + apply NoDup_singleton.
Qed.

Lemma legacy_calls_tables signals process win32 program args n k w :
  let i := (message_ids process + (length signals + n))%nat in
  let w' := after k (legacy_calls signals process win32 program args n) w in
  parent_listeners w' =
    (if has_send process
     then emitter_removeAllListeners EvMessage (parent_listeners w)
     else parent_listeners w) ++
    signal_entries (signal_listeners n signals) ++
    parent_message_entry process (length signals + n) ++
    [(EvExit, HangupListener i)] /\
  child_listeners w' =
    child_listeners w ++
    child_message_entry process (length signals + n) ++
    [(EvClose, CloseListener (S i))] /\
  pipes w' = pipes w.
Proof.
  intros i w'. subst w'. unfold after, legacy_calls.
  cbn [parent_listeners child_listeners pipes].
  rewrite !fold_left_app.
  rewrite parent_on_calls, parent_message_on_calls.
  rewrite (proj1 (child_signal_calls _ _)), child_message_on_calls.
  rewrite (proj1 (pipes_signal_calls _ _)), (proj1 (pipes_message_calls _ _ _)).
  simpl. unfold emitter_on. rewrite <- !app_assoc.
  by destruct (has_send process).
Qed.

(** *** The listeners of one event *)

Lemma emitter_listeners_app ev e1 e2 :
  emitter_listeners ev (e1 ++ e2) = emitter_listeners ev e1 ++ emitter_listeners ev e2.
Proof. unfold emitter_listeners. by rewrite filter_app, fmap_app. Qed.

Lemma emitter_listeners_signal_entries m :
  emitter_listeners EvMessage (signal_entries m) = [].
Proof.
  unfold emitter_listeners. induction m as [|[s l] m IH]; simpl; [done|].
  by rewrite filter_cons_False.
Qed.

Lemma emitter_listeners_removeAll ev e :
  emitter_listeners ev (emitter_removeAllListeners ev e) = [].
Proof.
  unfold emitter_listeners, emitter_removeAllListeners.
  induction e as [|p e IH]; [done|].
  rewrite (filter_cons (fun p => p.1 <> ev)). destruct (decide (p.1 <> ev)) as [Hne|_]; [|done].
  by rewrite filter_cons_False.
Qed.

(** C10: when [process] has [send], the legacy path calls
    [process.removeAllListeners("message")] right after spawning the
    child and before it registers anything, so that afterwards the
    only "message" listener of the process is the relay's own, whatever
    was registered before.  The modern path never makes that call: the
    "message" listeners of the parent are kept, and the relay's comes
    after them. *)
Theorem C10_legacy_removes_message_listeners
    (signals : list Signal) (process : ProcessLike) (win32 : bool)
    (created : SpawnFn -> string -> list string -> SpawnOptions -> ChildProcess)
    (program : string) (largs : list string) (cb : option CloseHandler)
    (file : string) (args : option (list string)) (options : option SpawnOptions)
    (w : World) :
  has_send process = true ->
  let legacy := foregroundChild signals process win32 created program largs cb in
  let modern := spawn signals process created file args options in
  let parent := default process (opt_parent (default empty_options options)) in
  let n := next_id w in
  trace legacy w =
    SpawnProcess (if win32 then CrossSpawn else HostSpawn) program largs
                 (legacy_options process) ::
    ParentRemoveAllListeners EvMessage ::
    on_calls (signal_listeners n signals) ++
    [ChildOn EvMessage (ChildMessageListener (length signals + n));
     ParentOn EvMessage (ParentMessageListener (S (length signals + n)));
     ParentOn EvExit (HangupListener (2 + (length signals + n)));
     ChildOn EvClose (CloseListener (3 + (length signals + n)))] /\
  emitter_listeners EvMessage (parent_listeners (exec legacy w)) =
    [ParentMessageListener (S (length signals + n))] /\
  ~ In (ParentRemoveAllListeners EvMessage) (trace modern w) /\
  emitter_listeners EvMessage (parent_listeners (exec modern w)) =
    emitter_listeners EvMessage (parent_listeners w) ++
    (if has_send parent then [ParentMessageListener (S (length signals + n))] else []).
Proof.
  intros Hsend legacy modern parent n. subst legacy modern.
  pose proof (spawn_runs signals process created file args options w) as Hm.
  pose proof (foregroundChild_runs signals process win32 created program largs cb w) as Hl.
  cbv zeta in Hm, Hl. fold parent in Hm. fold n in Hm, Hl.
  rewrite (runs_trace _ _ _ _ _ Hm), (runs_exec _ _ _ _ _ Hm).
  rewrite (runs_trace _ _ _ _ _ Hl), (runs_exec _ _ _ _ _ Hl).
  repeat split.
  - unfold legacy_calls, message_on_calls, message_ids. by rewrite Hsend.
  - destruct (legacy_calls_tables signals process win32 program largs n
                (length signals + message_ids process + 2) w) as (-> & _ & _).
    unfold parent_message_entry. rewrite Hsend, !emitter_listeners_app.
    by rewrite emitter_listeners_removeAll, emitter_listeners_signal_entries.
  - intros [[=]|Hin]; revert Hin.
    pose proof (proxy_calls_relay signals parent
                  (created (default HostSpawn (opt_spawn (default empty_options options)))
                     file (default [] args)
                     (spawn_options (default empty_options options) parent)) n) as Hrelay.
    unfold proxy_calls, message_on_calls in *.
    rewrite !in_app_iff. intros [Hin|[Hin|[Hin|Hin]]].
    + apply in_map_iff in Hin as (? & [=] & _).
    + unfold pipe_calls in Hin.
      destruct (child_stdout _), (child_stderr _), (child_stdin _);
        simpl in Hin; intuition discriminate.
    + destruct (has_send parent); simpl in Hin; intuition discriminate.
    + simpl in Hin; intuition discriminate.
  - match goal with |- context [parent_listeners (after ?k (?c :: ?cs) ?w0)] =>
      change (parent_listeners (after k (c :: cs) w0))
        with (parent_listeners (after k cs (after 0 [c] w0))) end.
    match goal with |- context [after ?k (proxy_calls ?s ?p ?ch ?m) ?w0] =>
      destruct (proxy_calls_tables s p ch m k w0) as (-> & _ & _) end.
    cbn [after parent_listeners fold_left parent_step].
    unfold parent_message_entry. rewrite !emitter_listeners_app.
    rewrite emitter_listeners_signal_entries.
    by destruct (has_send parent).
Qed.

(** *** Attach, then detach *)

Lemma message_entries_NoDup parent n (x : Event * Listener) :
  x.1 <> EvMessage ->
  NoDup (parent_message_entry parent n ++ [x]) /\
  NoDup (child_message_entry parent n ++ [x]).
Proof.
  intros Hx. unfold parent_message_entry, child_message_entry.
  destruct (has_send parent); simpl; split; try apply NoDup_singleton.
  all: apply NoDup_cons; split; [|apply NoDup_singleton].
  all: intros [<-|[]%elem_of_nil]%elem_of_cons; by apply Hx.
Qed.

(** The teardown of [onClose], run on what [proxy] attached, gives the
    tables back. *)
Lemma teardown_restores signals parent child n k k' cs w :
  let i := (message_ids parent + (length signals + n))%nat in
  let attached := after k (proxy_calls signals parent child n) w in
  let closed :=
    after k' (teardown_calls parent child (signal_listeners n signals)
                (length signals + n) (HangupListener i) ++ cs) attached in
  forallb (fun c => negb (is_relay_call c)) cs = true ->
  pipes_new parent child w ->
  parent_listeners closed = parent_listeners w /\
  child_listeners closed = child_listeners w ++ [(EvClose, CloseListener (S i))] /\
  pipes closed = pipes w.
Proof.
  intros i attached closed Hcs Hpipes. subst closed.
  destruct (teardown_calls_tables parent child (signal_listeners n signals)
              (length signals + n) (HangupListener i) k' cs attached Hcs)
    as (-> & -> & ->).
  subst attached.
  destruct (proxy_calls_tables signals parent child n k w) as (-> & -> & ->).
  fold i.
  destruct (message_entries_NoDup parent (length signals + n) (EvExit, HangupListener i))
    as [Hpm _]; [done|].
  destruct (message_entries_NoDup parent (length signals + n) (EvClose, CloseListener (S i)))
    as [_ Hcm]; [done|].
  repeat split.
  - rewrite (app_assoc (parent_listeners w)).
    rewrite remove_each_middle by done.
    pose proof (attached_NoDup n signals parent (length signals + n) i) as Hnd.
    rewrite (NoDup_app _ (_ ++ _)) in Hnd. destruct Hnd as (HS & Hdisj & _).
    rewrite <- app_assoc, remove_each_middle.
    + apply remove_last_end.
    + apply NoDup_app. split; [done|]. split; [|apply NoDup_singleton].
      intros x Hx Hin. apply (Hdisj x Hx). apply elem_of_app. by right.
  - by rewrite remove_each_middle.
  - by apply remove_pipes_added.
Qed.

(** The same teardown on tables that hold none of what [proxy]
    attached changes nothing. *)
Lemma teardown_again signals parent child n k cs w w' :
  let i := (message_ids parent + (length signals + n))%nat in
  let again :=
    after k (teardown_calls parent child (signal_listeners n signals)
               (length signals + n) (HangupListener i) ++ cs) w' in
  forallb (fun c => negb (is_relay_call c)) cs = true ->
  Forall (fun p => (listener_id p.2 < n)%nat) (parent_listeners w) ->
  Forall (fun p => (listener_id p.2 < n)%nat) (child_listeners w) ->
  pipes_new parent child w ->
  parent_listeners w' = parent_listeners w ->
  child_listeners w' = child_listeners w ++ [(EvClose, CloseListener (S i))] ->
  pipes w' = pipes w ->
  parent_listeners again = parent_listeners w' /\
  child_listeners again = child_listeners w' /\
  pipes again = pipes w'.
Proof.
  intros i again Hcs Hp Hc Hpipes Ep Ec Epi. subst again.
  destruct (teardown_calls_tables parent child (signal_listeners n signals)
              (length signals + n) (HangupListener i) k cs w' Hcs)
    as (-> & -> & ->).
  rewrite Ep, Ec, Epi. repeat split.
  - rewrite (remove_each_absent (parent_message_entry _ _)).
    + rewrite remove_each_absent by by apply signal_entries_absent.
      apply remove_last_absent, (known_absent _ n); [done|]. simpl. lia.
    + unfold parent_message_entry. destruct (has_send parent); [|done].
      apply Forall_singleton, (known_absent _ n); [done|]. simpl. lia.
  - apply remove_each_absent.
    unfold child_message_entry. destruct (has_send parent); [|done].
    apply Forall_singleton, not_elem_of_app. split.
    + apply (known_absent _ n); [done|]. simpl. lia.
    + intros [[=]|[]%elem_of_nil]%elem_of_cons.
  - by apply remove_pipes_absent.
Qed.

Lemma legacy_close_calls_parent process m l s v e :
  fold_left (fun e c => parent_step c e) (legacy_close_calls process m l s v) e =
  remove_last (EvExit, l) (remove_each (signal_entries m) e).
Proof.
  unfold legacy_close_calls. rewrite fold_left_app, parent_off_calls.
  by destruct (truthy s).
Qed.

Lemma legacy_base_known process e n :
  Forall (fun p => (listener_id p.2 < n)%nat) e ->
  Forall (fun p => (listener_id p.2 < n)%nat) (legacy_base process e).
Proof.
  unfold legacy_base, emitter_removeAllListeners. destruct (has_send process); [|done].
  rewrite !Forall_forall. intros He x [_ Hx]%list_elem_of_filter. by apply He.
Qed.

Lemma legacy_base_other_events process e n :
  filter (fun p => p.1 <> EvMessage)
         (legacy_base process e ++ parent_message_entry process n) =
  filter (fun p => p.1 <> EvMessage) e.
Proof.
  unfold legacy_base, parent_message_entry, emitter_removeAllListeners.
  destruct (has_send process); rewrite filter_app; simpl.
  - rewrite filter_cons_False by (simpl; tauto).
    rewrite filter_nil, app_nil_r.
    induction e as [|p e IH]; [done|].
    rewrite (filter_cons _ p e). destruct (decide (p.1 <> EvMessage)).
    + rewrite filter_cons_True by done. by rewrite IH.
    + done.
  - by rewrite filter_nil, app_nil_r.
Qed.

(** One invocation of the legacy close function removes the signal
    listeners and the "exit" listener. *)
Lemma legacy_close_removes signals process n e :
  let i := (message_ids process + (length signals + n))%nat in
  remove_last (EvExit, HangupListener i)
    (remove_each (signal_entries (signal_listeners n signals))
       (legacy_base process e ++
        signal_entries (signal_listeners n signals) ++
        parent_message_entry process (length signals + n) ++
        [(EvExit, HangupListener i)])) =
  legacy_base process e ++ parent_message_entry process (length signals + n).
Proof.
  intros i.
  rewrite remove_each_middle by apply attached_NoDup.
  rewrite app_assoc. apply remove_last_end.
Qed.

(** A further invocation finds nothing to remove. *)
Lemma legacy_close_removes_again signals process n e :
  let i := (message_ids process + (length signals + n))%nat in
  Forall (fun p => (listener_id p.2 < n)%nat) e ->
  remove_last (EvExit, HangupListener i)
    (remove_each (signal_entries (signal_listeners n signals))
       (legacy_base process e ++ parent_message_entry process (length signals + n))) =
  legacy_base process e ++ parent_message_entry process (length signals + n).
Proof.
  intros i He. apply (legacy_base_known process) in He.
  rewrite remove_each_absent.
  - apply remove_last_absent, not_elem_of_app. split.
    + apply (known_absent _ n); [done|]. simpl. lia.
    + unfold parent_message_entry. destruct (has_send process).
      * intros [[=]|[]%elem_of_nil]%elem_of_cons.
      * apply not_elem_of_nil.
  - apply Forall_forall. intros x Hx. apply not_elem_of_app. split.
    + revert x Hx. apply Forall_forall. by apply signal_entries_absent.
    + apply signal_entries_inv in Hx as (id & sg & -> & _).
      unfold parent_message_entry. destruct (has_send process).
      * intros [[=]|[]%elem_of_nil]%elem_of_cons.
      * apply not_elem_of_nil.
Qed.

(** C5 (as the code has it): on the modern path the "close" listener
    detaches the three relays and the "exit" listener, which leaves the
    parent's listeners and the pipes as they were before [proxy] and
    the child with the "close" listener alone; running the same
    teardown again changes nothing, and without IPC the message relay
    attaches nothing and its detach does nothing.  On the legacy path
    the "close" event by itself removes nothing: the signal listeners
    and the "exit" listener go when the close function is invoked,
    which leaves the parent's listeners of every event but "message" as
    they were before the call, and a further invocation changes
    nothing; the legacy path makes no pipe.  The hypotheses say that
    the signal names are pairwise different, that the listeners already
    registered are older function objects than the ones created here,
    and that the pipes to make do not exist yet. *)
Theorem C5_relay_teardown
    (signals : list Signal) (process parent : ProcessLike) (win32 : bool)
    (created : SpawnFn -> string -> list string -> SpawnOptions -> ChildProcess)
    (child : ChildProcess) (program : string) (args : list string)
    (c c' : option Z) (s s' : option Signal) (v : Val) (w : World) :
  NoDup signals ->
  listeners_known w ->
  pipes_new parent child w ->
  let start := proxy signals process parent child in
  let proxied := eval start w in
  let closed := exec (on_close proxied c s) (exec start w) in
  let again := exec (on_close proxied c' s') closed in
  let legacy cb :=
    let* fg := foregroundChild signals process win32 created program args (Some cb) in
    fg_on_close fg c s in
  let attached :=
    exec (foregroundChild signals process win32 created program args None) w in
  let other_events (e : Emitter) := filter (fun p => p.1 <> EvMessage) e in
  (parent_listeners closed = parent_listeners w /\
   child_listeners closed = child_listeners w ++ [(EvClose, close_listener proxied)] /\
   pipes closed = pipes w) /\
  (parent_listeners again = parent_listeners closed /\
   child_listeners again = child_listeners closed /\
   pipes again = pipes closed) /\
  (has_send parent = false ->
   trace (proxyMessages parent) w = [] /\
   forall w', exec (eval (proxyMessages parent) w) w' = w') /\
  parent_listeners (exec (legacy (fun _ => ret v)) w) = parent_listeners attached /\
  other_events (parent_listeners (exec (legacy (fun done => call done ;; ret v)) w)) =
    other_events (parent_listeners w) /\
  parent_listeners (exec (legacy (fun done => call done ;; call done ;; ret v)) w) =
    parent_listeners (exec (legacy (fun done => call done ;; ret v)) w) /\
  pipes attached = pipes w.
Proof.
  intros Hnd [Hkp Hkc] Hpipes start proxied closed again legacy attached other_events.
  subst start proxied closed again legacy attached other_events. cbv beta.
  set (n := next_id w).
  pose proof (proxy_runs signals process parent child w) as Hproxy. cbv zeta in Hproxy.
  rewrite (runs_eval _ _ _ _ _ Hproxy), (runs_exec _ _ _ _ _ Hproxy).
  cbn [on_close close_listener]. fold n.
  rewrite (signal_map_NoDup n signals Hnd).
  rewrite !(runs_exec _ _ _ _ _ (onClose_runs process parent child _ _ _ _ _ _)).
  assert (forall cb,
    exec (let* fg := foregroundChild signals process win32 created program args (Some cb)
          in fg_on_close fg c s) w =
    exec (legacy_on_close process (detach_signals (signal_listeners n signals))
            (HangupListener (message_ids process + (length signals + n))) cb c s)
         (after (length signals + message_ids process + 2)
                (legacy_calls signals process win32 program args n) w)) as Hlegacy.
  { intros cb.
    pose proof (foregroundChild_runs signals process win32 created program args (Some cb) w)
      as Hfg. cbv zeta in Hfg. fold n in Hfg.
    rewrite (exec_bind_runs _ _ _ _ _ _ Hfg). cbn [fg_on_close default from_option id].
    by rewrite (signal_map_NoDup n signals Hnd). }
  rewrite !Hlegacy.
  rewrite (runs_exec _ _ _ _ _
             (foregroundChild_runs signals process win32 created program args None w)).
  fold n.
  rewrite legacy_on_close_invoking, legacy_on_close_invoking_twice, legacy_on_close_exec.
  split; [|split; [|split; [|split; [|split; [|split]]]]].
  - by apply teardown_restores.
  - destruct (teardown_restores signals parent child n
                (length signals + message_ids parent + 2) 0 [ResolveClose c s] w)
      as (Ep & Ec & Epi); [done|done|].
    by apply (teardown_again signals parent child n 0 [ResolveClose c' s'] w).
  - intros Hsend. unfold proxyMessages, trace, exec, eval. rewrite Hsend. simpl.
    split; [apply drop_all|done].
  - reflexivity.
  - unfold after at 1. cbn [parent_listeners].
    rewrite fold_left_app. cbn [fold_left parent_step].
    rewrite legacy_close_calls_parent.
    destruct (legacy_calls_tables signals process win32 program args n
                (length signals + message_ids process + 2) w) as (-> & _ & _).
    fold (legacy_base process (parent_listeners w)).
    rewrite legacy_close_removes. apply legacy_base_other_events.
  - unfold after at 1 3. cbn [parent_listeners].
    rewrite !fold_left_app. cbn [fold_left parent_step].
    rewrite !legacy_close_calls_parent.
    destruct (legacy_calls_tables signals process win32 program args n
                (length signals + message_ids process + 2) w) as (-> & _ & _).
    fold (legacy_base process (parent_listeners w)).
    rewrite legacy_close_removes. by apply legacy_close_removes_again.
  - by destruct (legacy_calls_tables signals process win32 program args n
                   (length signals + message_ids process + 2) w) as (_ & _ & ->).
Qed.

(** C5, counterexample: on the legacy path a handler that returns
    without invoking the close function leaves the signal relay and the
    "exit" listener on the parent after the child's "close" event, and
    no teardown call was made; a handler that invokes the close
    function twice has every removal made twice. *)
Lemma C5_legacy_close_leaves_relays :
  let start cb := foregroundChild sample_signals sample_process false sample_created
                    "cat" [] (Some cb) in
  let closed cb :=
    exec (fg_on_close (eval (start cb) sample_world) (Some 0) None)
         (exec (start cb) sample_world) in
  let quiet : CloseHandler := fun _ => ret VUndefined in
  let twice : CloseHandler := fun done => call done ;; call done ;; ret VUndefined in
  emitter_listeners (EvSignal "SIGTERM") (parent_listeners (closed quiet)) =
    [SignalListener 4 "SIGTERM"] /\
  emitter_listeners EvExit (parent_listeners (closed quiet)) = [HangupListener 7] /\
  List.filter is_teardown (calls (closed quiet)) = [] /\
  List.filter is_teardown (calls (closed twice)) =
    [ParentRemoveListener (EvSignal "SIGHUP") (SignalListener 2 "SIGHUP");
     ParentRemoveListener (EvSignal "SIGINT") (SignalListener 3 "SIGINT");
     ParentRemoveListener (EvSignal "SIGTERM") (SignalListener 4 "SIGTERM");
     ParentRemoveListener EvExit (HangupListener 7);
     ParentRemoveListener (EvSignal "SIGHUP") (SignalListener 2 "SIGHUP");
     ParentRemoveListener (EvSignal "SIGINT") (SignalListener 3 "SIGINT");
     ParentRemoveListener (EvSignal "SIGTERM") (SignalListener 4 "SIGTERM");
     ParentRemoveListener EvExit (HangupListener 7)].
Proof. vm_compute. repeat split. Qed.

(** The hypotheses of C5 hold of the sample host, where the teardown
    gives the parent's listeners back. *)
Lemma C5_relay_teardown_witness :
  NoDup sample_signals /\
  listeners_known sample_world /\
  pipes_new sample_parent sample_child sample_world /\
  let start := proxy sample_signals sample_process sample_parent sample_child in
  let closed :=
    exec (on_close (eval start sample_world) (Some 0) None) (exec start sample_world) in
  parent_listeners closed = parent_listeners sample_world /\
  child_listeners closed =
    child_listeners sample_world ++
    [(EvClose, close_listener (eval start sample_world))] /\
  pipes closed = pipes sample_world.
Proof.
  assert (NoDup sample_signals) as Hnd
    by (apply (bool_decide_unpack _); vm_compute; exact I).
  assert (listeners_known sample_world) as Hknown
    by (split; apply (bool_decide_unpack _); vm_compute; exact I).
  assert (pipes_new sample_parent sample_child sample_world) as Hpipes
    by (apply (bool_decide_unpack _); vm_compute; exact I).
  split; [exact Hnd|]. split; [exact Hknown|]. split; [exact Hpipes|].
  exact (proj1 (C5_relay_teardown sample_signals sample_process sample_parent false
                  sample_created sample_child "cat" [] (Some 0) (Some 0) None None
                  VUndefined sample_world Hnd Hknown Hpipes)).
Defined.

(** The hypothesis of C10 holds of the sample process, whose "message"
    listener from before the call is gone afterwards. *)
Lemma C10_legacy_removes_message_listeners_witness :
  has_send sample_process = true /\
  emitter_listeners EvMessage (parent_listeners sample_world) = [UserListener 0] /\
  emitter_listeners EvMessage
    (parent_listeners
       (exec (foregroundChild sample_signals sample_process false sample_created
                "cat" [] None) sample_world)) =
  [ParentMessageListener 6].
Proof.
  split; [reflexivity|]. split; [reflexivity|].
  exact (proj1 (proj2 (C10_legacy_removes_message_listeners sample_signals sample_process
                         false sample_created "cat" [] None "cat" None None
                         sample_world eq_refl))).
Defined.

(** * Further properties of the code *)

(** ** The stdio policy *)

(** With IPC asked for, the result of [getStdio] is always a
    per-descriptor list with an "ipc" slot, whatever the base. *)
Theorem getStdio_with_ipc_has_slot (base : option StdioOptions) :
  exists l, getStdio base true = StdioArray l /\ SMode "ipc" ∈ l.
Proof.
  destruct base as [[s|l]|]; unfold getStdio; simpl.
  - eexists. split; [reflexivity|]. rewrite !elem_of_cons. tauto.
  - rewrite indexOf_negative. destruct (decide (SMode "ipc" ∈ l)) as [Hin|Hout].
    + rewrite bool_decide_eq_false_2 by (intros H; by apply H). by exists l.
    + rewrite bool_decide_eq_true_2 by done. eexists. split; [reflexivity|].
      rewrite elem_of_app, elem_of_cons. tauto.
  - eexists. split; [reflexivity|]. rewrite !elem_of_cons. tauto.
Qed.

(** [getStdio] is idempotent: its result, given back as the base with
    the same flag, comes back as it is. *)
Theorem getStdio_idempotent (base : option StdioOptions) (withIpc : bool) :
  getStdio (Some (getStdio base withIpc)) withIpc = getStdio base withIpc.
Proof.
  destruct withIpc; [|reflexivity].
  assert (forall l, SMode "ipc" ∈ l ->
            getStdio (Some (StdioArray l)) true = StdioArray l) as Hkeep.
  { intros l Hin. unfold getStdio; simpl. rewrite indexOf_negative.
    rewrite bool_decide_eq_false_2; [done|]. intros H; by apply H. }
  destruct base as [[s|l]|].
  - change (getStdio (Some (StdioString s)) true)
      with (StdioArray [SMode s; SMode s; SMode s; SMode "ipc"]).
    apply Hkeep. rewrite !elem_of_cons. tauto.
  - destruct (decide (SMode "ipc" ∈ l)) as [Hin|Hout].
    + by rewrite !(Hkeep l Hin).
    + assert (getStdio (Some (StdioArray l)) true = StdioArray (l ++ [SMode "ipc"]))
        as -> by (unfold getStdio; simpl;
                  by rewrite indexOf_negative, bool_decide_eq_true_2).
      apply Hkeep. rewrite elem_of_app, elem_of_cons. tauto.
  - change (getStdio None true)
      with (StdioArray [SMode "inherit"; SMode "inherit"; SMode "inherit"; SMode "ipc"]).
    apply Hkeep. rewrite !elem_of_cons. tauto.
Qed.

(** A per-descriptor list keeps every slot at its index: [getStdio]
    returns it as it is, or, with IPC asked for and no "ipc" slot in
    it, with one "ipc" slot after the last one, at the index that is
    the length of the base. *)
Theorem getStdio_keeps_slots (l : list StdioEntry) (withIpc : bool) :
  exists added,
    getStdio (Some (StdioArray l)) withIpc = StdioArray (l ++ added) /\
    (added = [] \/
     added = [SMode "ipc"] /\ withIpc = true /\ (SMode "ipc" ∉ l) /\
     (l ++ added) !! length l = Some (SMode "ipc")).
Proof.
  destruct withIpc; unfold getStdio; simpl.
  - rewrite indexOf_negative. destruct (decide (SMode "ipc" ∈ l)) as [Hin|Hout].
    + rewrite bool_decide_eq_false_2 by (intros H; by apply H).
      exists []. rewrite app_nil_r. by split; [|left].
    + rewrite bool_decide_eq_true_2 by done.
      exists [SMode "ipc"]. split; [done|]. right. repeat split; [done|].
      by rewrite lookup_app_r, Nat.sub_diag.
  - exists []. rewrite app_nil_r. by split; [|left].
Qed.

(** ** The arguments of the legacy entry point *)

Lemma last_strings (p : string) (strs : list string) :
  exists s, last (ArgString p :: (ArgString <$> strs)) = Some (ArgString s).
Proof.
  revert p. induction strs as [|x strs IH]; intros p; [by exists p|].
  destruct (IH x) as [s Hs]. exists s. rewrite <- Hs. reflexivity.
Qed.

Lemma last_cons_snoc (x : Arg) (l : list Arg) (y : Arg) :
  last (x :: l ++ [y]) = Some y.
Proof. change (x :: l ++ [y]) with ((x :: l) ++ [y]). apply last_snoc. Qed.

Lemma slice_rest (x : Arg) (rest : list Arg) :
  slice (x :: rest) 1 (length (x :: rest)) = rest.
Proof. unfold slice. simpl. rewrite Nat.sub_0_r. apply firstn_all. Qed.

Lemma slice_middle (x y : Arg) (mid : list Arg) :
  slice (x :: mid ++ [y]) 1 (length (x :: mid ++ [y]) - 1) = mid.
Proof.
  unfold slice. cbn [drop length].
  replace (S (length (mid ++ [y])) - 1 - 1)%nat with (length mid)
    by (rewrite length_app; simpl; lia).
  by rewrite drop_0, take_app_length.
Qed.

(** The three ways to call [foregroundChild] give the same normalized
    arguments: the program and its arguments as separate strings, the
    arguments as one array, or program and arguments in one array;
    in each a function in last position is the handler, and without
    one the handler is [(done) => done()]. *)
Theorem normalizeArguments_shapes_agree
    (p : string) (strs : list string) (f : CloseHandler) :
  let expected h :=
    mkNormalizedArguments (Some (ArgString p)) (ArgString <$> strs) h in
  normalizeArguments (ArgString p :: (ArgString <$> strs)) = expected default_handler /\
  normalizeArguments [ArgString p; ArgArray strs] = expected default_handler /\
  normalizeArguments [ArgArray (p :: strs)] = expected default_handler /\
  normalizeArguments (ArgString p :: (ArgString <$> strs) ++ [ArgFunction f]) = expected f /\
  normalizeArguments [ArgString p; ArgArray strs; ArgFunction f] = expected f /\
  normalizeArguments [ArgArray (p :: strs); ArgFunction f] = expected f.
Proof.
  intros expected. subst expected. repeat split.
  - unfold normalizeArguments.
    destruct (last_strings p strs) as [s ->]. cbn [lookup list_lookup].
    rewrite slice_rest. by destruct strs.
  - unfold normalizeArguments.
    change (last (ArgString p :: (ArgString <$> strs) ++ [ArgFunction f]))
      with (last ((ArgString p :: (ArgString <$> strs)) ++ [ArgFunction f])).
    rewrite last_snoc. cbn [lookup list_lookup].
    rewrite slice_middle. by destruct strs.
Qed.

(** An array decides the arguments alone: when the first argument is an
    array, the program is its first element ([undefined] for an empty
    array) and the arguments are the rest of it; when the second
    argument is an array, the arguments are that array.  Whatever
    follows is dropped, but for a function in last position, which is
    still taken as the handler. *)
Theorem normalizeArguments_array_wins
    (p : string) (l : list string) (rest : list Arg) (f : CloseHandler) :
  program (normalizeArguments (ArgArray l :: rest)) = ArgString <$> head l /\
  args (normalizeArguments (ArgArray l :: rest)) = ArgString <$> tail l /\
  program (normalizeArguments (ArgString p :: ArgArray l :: rest)) = Some (ArgString p) /\
  args (normalizeArguments (ArgString p :: ArgArray l :: rest)) = ArgString <$> l /\
  cb (normalizeArguments (ArgArray l :: rest ++ [ArgFunction f])) = f /\
  cb (normalizeArguments (ArgString p :: ArgArray l :: rest ++ [ArgFunction f])) = f.
Proof.
  unfold normalizeArguments. cbn [lookup list_lookup].
  rewrite (last_cons_snoc (ArgArray l) rest).
  rewrite (last_cons_snoc (ArgString p) (ArgArray l :: rest) (ArgFunction f)
           : last (ArgString p :: ArgArray l :: rest ++ [ArgFunction f]) = _).
  change (last (ArgString p :: ArgArray l :: rest)) with (last (ArgArray l :: rest)).
  by destruct (last (ArgArray l :: rest)) as [[]|].
Qed.

(** A function in last position is the handler and is not an argument,
    also when it is the only argument, in which case it is the program
    as well.  Only the last position counts: functions before it stay
    among the arguments.  The hypotheses say that neither of the first
    two arguments is an array. *)
Theorem normalizeArguments_trailing_function
    (first : Arg) (mid : list Arg) (f : CloseHandler) :
  is_array first = false ->
  from_option is_array false (head mid) = false ->
  normalizeArguments (first :: mid ++ [ArgFunction f]) =
    mkNormalizedArguments (Some first) mid f /\
  normalizeArguments [ArgFunction f] =
    mkNormalizedArguments (Some (ArgFunction f)) [] f.
Proof.
  intros Hfirst Hmid. split; [|reflexivity].
  unfold normalizeArguments.
  rewrite last_cons_snoc. cbn [lookup list_lookup app].
  rewrite (slice_middle first (ArgFunction f) mid).
  destruct first; try discriminate; destruct mid as [|[] mid]; try discriminate; done.
Qed.

Lemma normalizeArguments_trailing_function_witness :
  is_array (ArgString "node") = false /\
  from_option is_array false (head [ArgFunction default_handler; ArgString "x"]) = false /\
  args (normalizeArguments
          [ArgString "node"; ArgFunction default_handler; ArgString "x";
           ArgFunction default_handler]) =
    [ArgFunction default_handler; ArgString "x"].
Proof.
  split; [reflexivity|]. split; [reflexivity|].
  exact (f_equal args
           (proj1 (normalizeArguments_trailing_function (ArgString "node")
                     [ArgFunction default_handler; ArgString "x"] default_handler
                     eq_refl eq_refl))).
Defined.

(** Without a function in last position the handler is
    [(done) => done()] and every argument after the first is kept, in
    order; a call without arguments gives an [undefined] program and no
    arguments.  The hypotheses say that neither of the first two
    arguments is an array and that the last one is not a function. *)
Theorem normalizeArguments_without_handler (first : Arg) (rest : list Arg) :
  is_array first = false ->
  from_option is_array false (head rest) = false ->
  from_option is_function false (last (first :: rest)) = false ->
  normalizeArguments (first :: rest) =
    mkNormalizedArguments (Some first) rest default_handler /\
  normalizeArguments [] = mkNormalizedArguments None [] default_handler.
Proof.
  intros Hfirst Hrest Hlast. split; [|reflexivity].
  unfold normalizeArguments.
  destruct (last (first :: rest)) as [[]|]; try discriminate;
    cbn [lookup list_lookup]; rewrite slice_rest;
    destruct first; try discriminate; destruct rest as [|[] rest]; try discriminate; done.
Qed.

Lemma normalizeArguments_without_handler_witness :
  is_array (ArgString "node") = false /\
  from_option is_array false (head [ArgFunction default_handler; ArgString "x"]) = false /\
  from_option is_function false
    (last [ArgString "node"; ArgFunction default_handler; ArgString "x"]) = false /\
  args (normalizeArguments
          [ArgString "node"; ArgFunction default_handler; ArgString "x"]) =
    [ArgFunction default_handler; ArgString "x"].
Proof.
  split; [reflexivity|]. split; [reflexivity|]. split; [reflexivity|].
  exact (f_equal args
           (proj1 (normalizeArguments_without_handler (ArgString "node")
                     [ArgFunction default_handler; ArgString "x"]
                     eq_refl eq_refl eq_refl))).
Defined.

(** ** Events of the parent and of the child while the relays are attached *)

Lemma fire_runs l message w : runs (fire l message) w tt 0 (fire_calls l message).
Proof. destruct l; simpl; first [apply runs_perform|apply runs_ret]. Qed.

Lemma fire_all_runs ls message w :
  runs (fire_all ls message) w tt 0 (concat (map (fun l => fire_calls l message) ls)).
Proof.
  revert w. induction ls as [|l ls IH]; intros w; simpl; [apply runs_ret|].
  eapply runs_eq; [eapply runs_bind; [apply fire_runs|apply IH]|..]; reflexivity.
Qed.

Lemma parent_emit_trace ev message w :
  trace (parent_emit ev message) w = emitted ev message (parent_listeners w).
Proof. apply (runs_trace _ _ tt 0%nat). unfold runs, parent_emit. apply fire_all_runs. Qed.

Lemma child_emit_trace ev message w :
  trace (child_emit ev message) w = emitted ev message (child_listeners w).
Proof. apply (runs_trace _ _ tt 0%nat). unfold runs, child_emit. apply fire_all_runs. Qed.

Lemma emitted_app ev message e1 e2 :
  emitted ev message (e1 ++ e2) = emitted ev message e1 ++ emitted ev message e2.
Proof. unfold emitted. by rewrite emitter_listeners_app, map_app, concat_app. Qed.

Lemma emitted_cons ev message ev' l e :
  emitted ev message ((ev', l) :: e) =
  (if decide (ev' = ev) then fire_calls l message else []) ++ emitted ev message e.
Proof.
  unfold emitted, emitter_listeners. rewrite filter_cons. simpl.
  by destruct (decide (ev' = ev)).
Qed.

Lemma emitted_nil ev message : emitted ev message [] = [].
Proof. reflexivity. Qed.

Lemma emitted_signal_entries ev message n sigs :
  emitted ev message (signal_entries (signal_listeners n sigs)) =
  match ev with
  | EvSignal s => replicate (length (filter (fun x => x = s) sigs)) (ChildKill s)
  | _ => []
  end.
Proof.
  revert n. induction sigs as [|sig sigs IH]; intros n; simpl.
  - by destruct ev.
  - rewrite emitted_cons, IH. destruct ev as [s| | |];
      try (rewrite decide_False by discriminate; reflexivity).
    rewrite filter_cons. destruct (decide (sig = s)) as [->|Hne].
    + by rewrite decide_True.
    + rewrite decide_False by congruence. reflexivity.
Qed.

Lemma emitted_parent_message_entry ev message parent n :
  emitted ev message (parent_message_entry parent n) =
  match ev with
  | EvMessage => if has_send parent then [ChildSend message] else []
  | _ => []
  end.
Proof.
  unfold parent_message_entry. destruct (has_send parent); [|by destruct ev].
  rewrite emitted_cons, emitted_nil. by destruct ev.
Qed.

Lemma emitted_child_message_entry ev message parent n :
  emitted ev message (child_message_entry parent n) =
  match ev with
  | EvMessage => if has_send parent then [ParentSend message] else []
  | _ => []
  end.
Proof.
  unfold child_message_entry. destruct (has_send parent); [|by destruct ev].
  rewrite emitted_cons, emitted_nil. by destruct ev.
Qed.

Lemma emitted_exit_entry ev message i :
  emitted ev message [(EvExit, HangupListener i)] =
  match ev with
  | EvExit => [ChildKill "SIGHUP"]
  | _ => []
  end.
Proof. rewrite emitted_cons, emitted_nil. by destruct ev. Qed.

(** What the relays add to the reaction of the parent's table. *)
Lemma emitted_attached signals parent ev message n k i :
  emitted ev message
    (signal_entries (signal_listeners n signals) ++
     parent_message_entry parent k ++ [(EvExit, HangupListener i)]) =
  forwarded signals parent ev message.
Proof.
  rewrite !emitted_app, emitted_signal_entries, emitted_parent_message_entry,
    emitted_exit_entry.
  unfold forwarded. destruct ev; simpl; rewrite ?app_nil_r; reflexivity.
Qed.

(** Once [proxy] has attached, an event of the parent does what it did
    before and then reaches the child: a signal of the list is sent to
    the child under the same name, once for each time the list names
    it, and a signal the list does not name is not passed on; a
    message is sent on to the child when the parent has an IPC channel;
    the parent's "exit" sends SIGHUP.  A message of the child is sent
    on to the parent when the parent has an IPC channel. *)
Theorem proxy_forwards_events
    (signals : list Signal) (process parent : ProcessLike) (child : ChildProcess)
    (ev : Event) (message : Val) (w : World) :
  let attached := exec (proxy signals process parent child) w in
  trace (parent_emit ev message) attached =
    trace (parent_emit ev message) w ++ forwarded signals parent ev message /\
  trace (child_emit EvMessage message) attached =
    trace (child_emit EvMessage message) w ++
    (if has_send parent then [ParentSend message] else []).
Proof.
  intros attached. subst attached.
  rewrite (runs_exec _ _ _ _ _ (proxy_runs signals process parent child w)).
  rewrite !parent_emit_trace, !child_emit_trace.
  destruct (proxy_calls_tables signals parent child (next_id w)
              (length signals + message_ids parent + 2) w) as (-> & -> & _).
  split.
  - by rewrite emitted_app, emitted_attached.
  - rewrite !emitted_app, emitted_child_message_entry, emitted_cons, emitted_nil.
    rewrite decide_False by discriminate. by rewrite !app_nil_r.
Qed.

Lemma emitted_removeAll_other ev ev' message (e : Emitter) :
  ev <> ev' ->
  emitted ev message (emitter_removeAllListeners ev' e) = emitted ev message e.
Proof.
  intros Hne. unfold emitter_removeAllListeners.
  induction e as [|[ev0 l] e IH]; [done|].
  rewrite filter_cons. simpl. destruct (decide (ev0 <> ev')) as [H0|H0].
  - by rewrite !emitted_cons, IH.
  - rewrite emitted_cons, IH. rewrite decide_False; [done|].
    intros ->. by apply H0.
Qed.

Lemma emitted_legacy_base ev message process (e : Emitter) :
  emitted ev message (legacy_base process e) =
  if has_send process && bool_decide (ev = EvMessage) then [] else emitted ev message e.
Proof.
  unfold legacy_base. destruct (has_send process); simpl; [|done].
  destruct (decide (ev = EvMessage)) as [->|Hne].
  - rewrite bool_decide_eq_true_2 by done.
    unfold emitted. by rewrite emitter_listeners_removeAll.
  - rewrite bool_decide_eq_false_2 by done. by apply emitted_removeAll_other.
Qed.

(** Once [foregroundChild] has attached, the parent's events reach the
    child as on the modern path, with one difference: when the process
    has an IPC channel, a message no longer reaches the listeners that
    were registered before the call, only the child. *)
Theorem foregroundChild_forwards_events
    (signals : list Signal) (process : ProcessLike) (win32 : bool)
    (created : SpawnFn -> string -> list string -> SpawnOptions -> ChildProcess)
    (file : string) (largs : list string) (handler : option CloseHandler)
    (ev : Event) (message : Val) (w : World) :
  let attached :=
    exec (foregroundChild signals process win32 created file largs handler) w in
  trace (parent_emit ev message) attached =
    (if has_send process && bool_decide (ev = EvMessage) then []
     else trace (parent_emit ev message) w) ++
    forwarded signals process ev message /\
  trace (child_emit EvMessage message) attached =
    trace (child_emit EvMessage message) w ++
    (if has_send process then [ParentSend message] else []).
Proof.
  intros attached. subst attached.
  rewrite (runs_exec _ _ _ _ _
             (foregroundChild_runs signals process win32 created file largs handler w)).
  rewrite !parent_emit_trace, !child_emit_trace.
  destruct (legacy_calls_tables signals process win32 file largs (next_id w)
              (length signals + message_ids process + 2) w) as (-> & -> & _).
  fold (legacy_base process (parent_listeners w)). split.
  - by rewrite emitted_app, emitted_attached, emitted_legacy_base.
  - rewrite !emitted_app, emitted_child_message_entry, emitted_cons, emitted_nil.
    rewrite decide_False by discriminate. by rewrite !app_nil_r.
Qed.

(** ** Events after the child has closed *)

(** On the modern path, once the "close" listener has run, every event
    of the parent and every message of the child does exactly what it
    did before [proxy]: nothing is passed on any more.  The hypotheses say that the
    signal names are pairwise different and that the pipes [proxy]
    makes did not exist before. *)
Theorem proxy_close_stops_forwarding
    (signals : list Signal) (process parent : ProcessLike) (child : ChildProcess)
    (c : option Z) (s : option Signal) (ev : Event) (message : Val) (w : World) :
  NoDup signals ->
  pipes_new parent child w ->
  let closed :=
    exec (let* proxied := proxy signals process parent child in on_close proxied c s) w in
  trace (parent_emit ev message) closed = trace (parent_emit ev message) w /\
  trace (child_emit EvMessage message) closed = trace (child_emit EvMessage message) w.
Proof.
  intros Hnd Hpipes closed. subst closed.
  pose proof (proxy_runs signals process parent child w) as Hproxy. cbv zeta in Hproxy.
  rewrite (exec_bind_runs _ _ _ _ _ _ Hproxy). cbn [on_close].
  rewrite (signal_map_NoDup _ signals Hnd).
  rewrite (runs_exec _ _ _ _ _ (onClose_runs process parent child _ _ _ _ _ _)).
  rewrite !parent_emit_trace, !child_emit_trace.
  destruct (teardown_restores signals parent child (next_id w)
              (length signals + message_ids parent + 2) 0 [ResolveClose c s] w)
    as (-> & -> & _); [done|done|].
  split; [done|].
  rewrite emitted_app, emitted_cons, emitted_nil.
  rewrite decide_False by discriminate. by rewrite !app_nil_r.
Qed.

Lemma proxy_close_stops_forwarding_witness :
  NoDup sample_signals /\
  pipes_new sample_parent sample_child sample_world /\
  let closed :=
    exec (let* proxied := proxy sample_signals sample_process sample_parent sample_child in
          on_close proxied None (Some "SIGINT")) sample_world in
  trace (parent_emit (EvSignal "SIGINT") VUndefined) closed = [].
Proof.
  assert (NoDup sample_signals) as Hnd
    by (apply (bool_decide_unpack _); vm_compute; exact I).
  assert (pipes_new sample_parent sample_child sample_world) as Hpipes
    by (apply (bool_decide_unpack _); vm_compute; exact I).
  split; [exact Hnd|]. split; [exact Hpipes|].
  exact (proj1 (proxy_close_stops_forwarding sample_signals sample_process sample_parent
                  sample_child None (Some "SIGINT") (EvSignal "SIGINT") VUndefined
                  sample_world Hnd Hpipes)).
Defined.

(** On the legacy path with the default handler, after the child's
    "close" the parent's signals and "exit" do what they did before
    the call, but the message relay stays: with an IPC channel a
    message of the parent is still sent to the closed child, and a
    message of the child is still sent on by the parent.  The
    hypothesis says that the signal names are pairwise different. *)
Theorem foregroundChild_close_keeps_message_relay
    (signals : list Signal) (process : ProcessLike) (win32 : bool)
    (created : SpawnFn -> string -> list string -> SpawnOptions -> ChildProcess)
    (file : string) (largs : list string)
    (c : option Z) (s : option Signal) (ev : Event) (message : Val) (w : World) :
  NoDup signals ->
  let closed :=
    exec (let* fg := foregroundChild signals process win32 created file largs None in
          fg_on_close fg c s) w in
  trace (parent_emit ev message) closed =
    (if has_send process && bool_decide (ev = EvMessage) then [ChildSend message]
     else trace (parent_emit ev message) w) /\
  trace (child_emit EvMessage message) closed =
    trace (child_emit EvMessage message) w ++
    (if has_send process then [ParentSend message] else []).
Proof.
  intros Hnd closed. subst closed.
  pose proof (foregroundChild_runs signals process win32 created file largs None w) as Hfg.
  cbv zeta in Hfg.
  rewrite (exec_bind_runs _ _ _ _ _ _ Hfg). cbn [fg_on_close default from_option id].
  rewrite (signal_map_NoDup _ signals Hnd).
  unfold default_handler. rewrite legacy_on_close_invoking.
  rewrite !parent_emit_trace, !child_emit_trace.
  unfold after at 1 3. cbn [parent_listeners child_listeners].
  rewrite !fold_left_app. cbn [fold_left parent_step child_step].
  rewrite legacy_close_calls_parent.
  destruct (legacy_calls_tables signals process win32 file largs (next_id w)
              (length signals + message_ids process + 2) w) as (-> & -> & _).
  fold (legacy_base process (parent_listeners w)).
  rewrite legacy_close_removes. split.
  - rewrite emitted_app, emitted_legacy_base, emitted_parent_message_entry.
    destruct (has_send process), ev; simpl; rewrite ?app_nil_r; reflexivity.
  - unfold legacy_close_calls. rewrite !fold_left_app.
    rewrite (proj2 (child_signal_calls _ _)).
    assert (forall e, fold_left (fun e c => child_step c e)
              match truthy s with
              | Some s0 => [SetTimeout 200; ParentKill (pid process) s0]
              | None => [ParentExit (legacy_exit_code c s)]
              end e = e) as Hterm by (intros e; by destruct (truthy s)).
    cbn [fold_left child_step]. rewrite Hterm.
    rewrite !emitted_app, emitted_child_message_entry, emitted_cons, emitted_nil.
    rewrite decide_False by discriminate. by rewrite !app_nil_r.
Qed.

Lemma foregroundChild_close_keeps_message_relay_witness :
  NoDup sample_signals /\
  let closed :=
    exec (let* fg := foregroundChild sample_signals sample_process false sample_created
                       "cat" [] None in
          fg_on_close fg (Some 0) None) sample_world in
  trace (parent_emit EvMessage (VStr "late") ) closed = [ChildSend (VStr "late")].
Proof.
  assert (NoDup sample_signals) as Hnd
    by (apply (bool_decide_unpack _); vm_compute; exact I).
  split; [exact Hnd|].
  exact (proj1 (foregroundChild_close_keeps_message_relay sample_signals sample_process
                  false sample_created "cat" [] (Some 0) None EvMessage (VStr "late")
                  sample_world Hnd)).
Defined.

(** ** The exit code on the legacy path *)

(** The legacy close function exits with [process.exitCode] as it is
    when the function is invoked, so a handler that stores [v] there
    before invoking it makes the parent exit with [v] instead of the
    child's code.  After a death by signal the stored value plays no
    part: the signal is raised on the parent. *)
Theorem legacy_handler_sets_exit_code
    (signals : list Signal) (process : ProcessLike) (win32 : bool)
    (created : SpawnFn -> string -> list string -> SpawnOptions -> ChildProcess)
    (file : string) (largs : list string)
    (c : option Z) (s : option Signal) (v x : Val) (w w1 : World) :
  let handler : CloseHandler :=
    fun done => perform (SetExitCode v) ;; call done ;; ret x in
  let fg :=
    eval (foregroundChild signals process win32 created file largs (Some handler)) w in
  terminations (trace (fg_on_close fg c s) w1) =
    match truthy s with
    | Some name => [ParentKill (pid process) name]
    | None => [ParentExit v]
    end.
Proof.
  intros handler fg. subst handler fg.
  rewrite (runs_eval _ _ _ _ _ (foregroundChild_runs _ _ _ _ _ _ _ w)).
  cbn [fg_on_close default from_option id].
  set (m := signal_map (next_id w) signals).
  set (l := HangupListener _).
  assert (exec (legacy_on_close process (detach_signals m) l
                  (fun done => perform (SetExitCode v) ;; call done ;; ret x) c s) w1 =
          after 0 ([SetExitCode (legacy_exit_code c s); CallHandler c s; SetExitCode v] ++
                   legacy_close_calls process m l s v) w1) as Hexec.
  { rewrite legacy_on_close_exec. cbn [call].
    rewrite (exec_bind_runs _ _ _ _ _ _ (runs_perform _ _)).
    rewrite exec_bind_ret.
    rewrite (runs_exec _ _ _ _ _ (legacy_close_body_runs process m l s _)).
    by rewrite !after_after. }
  rewrite (exec_trace _ _ _ _ Hexec).
  by rewrite terminations_app, terminations_legacy_close_calls.
Qed.

(** ** The IPC channel at spawn *)

Lemma proxy_calls_without_send signals parent child n l :
  has_send parent = false ->
  ~ In (ChildOn EvMessage l) (proxy_calls signals parent child n) /\
  ~ In (ParentOn EvMessage l) (proxy_calls signals parent child n).
Proof.
  intros Hsend. unfold proxy_calls, message_on_calls, pipe_calls. rewrite Hsend.
  split; rewrite !in_app_iff; intros [Hin|[Hin|[Hin|Hin]]].
  all: try (apply in_map_iff in Hin as (? & [=] & _)).
  all: try (destruct (child_stdout child), (child_stderr child), (child_stdin child)).
  all: simpl in Hin; intuition discriminate.
Qed.

(** [spawn] asks for an IPC channel to the child whenever it attaches
    the message relay: when the parent has [send], the options passed
    have an "ipc" slot in [stdio] and the two "message" listeners are
    registered; when it has none, [stdio] is the caller's (or
    "inherit") as it is and no "message" listener is registered. *)
Theorem spawn_ipc_channel
    (signals : list Signal) (process : ProcessLike)
    (created : SpawnFn -> string -> list string -> SpawnOptions -> ChildProcess)
    (file : string) (largs : option (list string))
    (options : option SpawnOptions) (w : World) :
  let given := default empty_options options in
  let parent := default process (opt_parent given) in
  exists fn passed rest,
    trace (spawn signals process created file largs options) w =
      SpawnProcess fn file (default [] largs) passed :: rest /\
    if has_send parent
    then
      (exists l, opt_stdio passed = Some (StdioArray l) /\ SMode "ipc" ∈ l) /\
      In (ChildOn EvMessage (ChildMessageListener (length signals + next_id w))) rest /\
      In (ParentOn EvMessage (ParentMessageListener (S (length signals + next_id w)))) rest
    else
      opt_stdio passed = Some (default (StdioString "inherit") (opt_stdio given)) /\
      forall l, ~ In (ChildOn EvMessage l) rest /\ ~ In (ParentOn EvMessage l) rest.
Proof.
  intros given parent.
  pose proof (spawn_runs signals process created file largs options w) as H.
  cbv zeta in H. fold given parent in H.
  rewrite (runs_trace _ _ _ _ _ H).
  eexists _, _, _. split; [reflexivity|].
  destruct (has_send parent) eqn:Hsend.
  - split; [|split].
    + change (opt_stdio (spawn_options given parent))
        with (Some (getStdio (opt_stdio given) (has_send parent))).
      rewrite Hsend. destruct (opt_stdio given) as [[m|l]|]; unfold getStdio; simpl.
      * eexists. split; [reflexivity|]. rewrite !elem_of_cons. tauto.
      * rewrite indexOf_negative. destruct (decide (SMode "ipc" ∈ l)) as [Hin|Hout].
        -- rewrite bool_decide_eq_false_2 by (intros H'; by apply H'). by exists l.
        -- rewrite bool_decide_eq_true_2 by done. eexists. split; [reflexivity|].
           rewrite elem_of_app, elem_of_cons. tauto.
      * eexists. split; [reflexivity|]. rewrite !elem_of_cons. tauto.
    + unfold proxy_calls, message_on_calls. rewrite Hsend, !in_app_iff.
      right. right. left. by left.
    + unfold proxy_calls, message_on_calls. rewrite Hsend, !in_app_iff.
      right. right. left. right. by left.
  - split.
    + change (opt_stdio (spawn_options given parent))
        with (Some (getStdio (opt_stdio given) (has_send parent))).
      rewrite Hsend. by destruct (opt_stdio given).
    + intros l. by apply proxy_calls_without_send.
Qed.

(** ** A signal named twice *)

Lemma remove_first_length {A} `{EqDecision A} (x : A) (l : list A) :
  (length l <= S (length (remove_first x l)))%nat.
Proof.
  induction l as [|y t IH]; simpl; [lia|].
  destruct (decide (y = x)); simpl; lia.
Qed.

Lemma remove_last_length {A} `{EqDecision A} (x : A) (l : list A) :
  (length l <= S (length (remove_last x l)))%nat.
Proof.
  unfold remove_last. rewrite length_rev.
  pose proof (remove_first_length x (rev l)) as H. by rewrite length_rev in H.
Qed.

Lemma remove_each_length xs (e : Emitter) :
  (length e <= length xs + length (remove_each xs e))%nat.
Proof.
  unfold remove_each. revert e. induction xs as [|x xs IH]; intros e; simpl; [lia|].
  pose proof (remove_last_length x e). pose proof (IH (remove_last x e)). lia.
Qed.

Lemma map_set_keys k v (m : SignalMap) :
  map fst (map_set k v m) =
  if decide (k ∈ map fst m) then map fst m else map fst m ++ [k].
Proof.
  induction m as [|[k' v'] m IH]; simpl; [done|].
  destruct (decide (k' = k)) as [->|Hne]; simpl.
  - rewrite decide_True; [done|]. apply list_elem_of_here.
  - rewrite IH. destruct (decide (k ∈ map fst m)) as [Hin|Hout].
    + rewrite decide_True; [done|]. by apply list_elem_of_further.
    + rewrite decide_False; [done|].
      intros [?|?]%elem_of_cons; [by apply Hne|by apply Hout].
Qed.

(** The keys of the [Map] are pairwise different and all come from the
    names that were set. *)
Lemma signal_map_fold_keys (entries m : SignalMap) :
  NoDup (map fst m) ->
  let m' := fold_left (fun m p => map_set p.1 p.2 m) entries m in
  NoDup (map fst m') /\
  forall k, k ∈ map fst m' -> k ∈ map fst m \/ k ∈ map fst entries.
Proof.
  revert m. induction entries as [|[k v] entries IH]; intros m Hnd; simpl.
  - split; [done|]. by left.
  - destruct (IH (map_set k v m)) as [Hnd' Hsub].
    + rewrite map_set_keys. destruct (decide (k ∈ map fst m)); [done|].
      apply NoDup_app. split; [done|]. split; [|apply NoDup_singleton].
      intros y Hy [->|[]%elem_of_nil]%elem_of_cons. done.
    + split; [done|]. intros k' Hk'. destruct (Hsub k' Hk') as [Hin|Hin].
      * rewrite map_set_keys in Hin. destruct (decide (k ∈ map fst m)); [by left|].
        apply elem_of_app in Hin as [?|[->|[]%elem_of_nil]%elem_of_cons]; [by left|].
        right. apply list_elem_of_here.
      * right. by apply list_elem_of_further.
Qed.

(** With a name repeated in the list, the [Map] has fewer entries than
    the loop registered listeners. *)
Lemma signal_map_shorter n sigs :
  ~ NoDup sigs -> (length (signal_map n sigs) < length sigs)%nat.
Proof.
  intros Hdup. unfold signal_map.
  destruct (signal_map_fold_keys (signal_listeners n sigs) []) as [Hnd Hsub];
    [apply NoDup_nil_2|].
  set (m := fold_left _ _ _) in *.
  rewrite signal_listeners_keys in Hsub.
  assert (map fst m ⊆+ sigs) as Hsm.
  { apply NoDup_submseteq; [done|]. intros k Hk.
    destruct (Hsub k Hk) as [[]%elem_of_nil|]; done. }
  destruct (decide (length sigs <= length (map fst m))%nat) as [Hle|Hlt].
  - exfalso. apply Hdup.
    rewrite <- (submseteq_length_Permutation _ _ Hsm Hle). done.
  - rewrite length_map in Hlt. lia.
Qed.

(** When [signalExit.signals()] names a signal twice, the teardown of
    [onClose] does not undo [proxy]: the parent is left with more
    listeners than it had before, because the [Map] of [proxySignals]
    keeps one listener for each name and only those are removed. *)
Theorem repeated_signal_leaks_listener
    (signals : list Signal) (process parent : ProcessLike) (child : ChildProcess)
    (c : option Z) (s : option Signal) (w : World) :
  ~ NoDup signals ->
  let closed :=
    exec (let* proxied := proxy signals process parent child in on_close proxied c s) w in
  (length (parent_listeners w) < length (parent_listeners closed))%nat.
Proof.
  intros Hdup closed. subst closed.
  pose proof (proxy_runs signals process parent child w) as Hproxy. cbv zeta in Hproxy.
  rewrite (exec_bind_runs _ _ _ _ _ _ Hproxy). cbn [on_close].
  rewrite (runs_exec _ _ _ _ _ (onClose_runs process parent child _ _ _ _ _ _)).
  set (n := next_id w).
  set (i := (message_ids parent + (length signals + n))%nat).
  destruct (teardown_calls_tables parent child (signal_map n signals)
              (length signals + n) (HangupListener i) 0 [ResolveClose c s]
              (after (length signals + message_ids parent + 2)
                     (proxy_calls signals parent child n) w)) as (-> & _ & _); [done|].
  destruct (proxy_calls_tables signals parent child n
              (length signals + message_ids parent + 2) w) as (-> & _ & _).
  fold i.
  set (e := parent_listeners w ++ _).
  assert (length e =
          (length (parent_listeners w) + length signals +
           length (parent_message_entry parent (length signals + n)) + 1)%nat) as He.
  { subst e. rewrite !length_app. unfold signal_entries.
    rewrite length_map. simpl.
    assert (length (signal_listeners n signals) = length signals) as ->.
    { rewrite <- (signal_listeners_keys n signals) at 2. by rewrite length_map. }
    lia. }
  pose proof (remove_each_length (parent_message_entry parent (length signals + n)) e) as H1.
  pose proof (remove_each_length (signal_entries (signal_map n signals))
                (remove_each (parent_message_entry parent (length signals + n)) e)) as H2.
  pose proof (remove_last_length (EvExit, HangupListener i)
                (remove_each (signal_entries (signal_map n signals))
                   (remove_each (parent_message_entry parent (length signals + n)) e)))
    as H3.
  pose proof (signal_map_shorter n signals Hdup) as H4.
  unfold signal_entries in H2 at 1. rewrite length_map in H2. lia.
Qed.

Lemma repeated_signal_leaks_listener_witness :
  ~ NoDup sample_repeated_signals /\
  let closed :=
    exec (let* proxied := proxy sample_repeated_signals sample_process sample_parent
                            sample_child in
          on_close proxied (Some 0) None) sample_world in
  (length (parent_listeners sample_world) < length (parent_listeners closed))%nat.
Proof.
  assert (~ NoDup sample_repeated_signals) as Hdup
    by (apply (bool_decide_unpack _); vm_compute; exact I).
  split; [exact Hdup|].
  exact (repeated_signal_leaks_listener sample_repeated_signals sample_process
           sample_parent sample_child (Some 0) None sample_world Hdup).
Defined.

(** ** Two children behind one parent *)

Lemma attached_entries_ids signals parent n x :
  x ∈ attached_entries signals parent n ->
  (n <= listener_id x.2 < proxy_ids signals parent + n)%nat.
Proof.
  unfold attached_entries, proxy_ids, parent_message_entry, message_ids.
  rewrite !elem_of_app. intros [Hx|[Hx|Hx]].
  - apply signal_entries_inv in Hx as (id & sg & -> & Hid). simpl. lia.
  - destruct (has_send parent); [|by apply elem_of_nil in Hx].
    apply elem_of_cons in Hx as [->|[]%elem_of_nil]. simpl. lia.
  - apply elem_of_cons in Hx as [->|[]%elem_of_nil].
    destruct (has_send parent); simpl; lia.
Qed.

Lemma attached_entries_twice_NoDup signals parent n :
  NoDup (attached_entries signals parent n ++
         attached_entries signals parent (proxy_ids signals parent + n)).
Proof.
  apply NoDup_app. split; [apply attached_NoDup|]. split; [|apply attached_NoDup].
  intros x Hx Hx'.
  apply attached_entries_ids in Hx. apply attached_entries_ids in Hx'. lia.
Qed.

(** The removals of [onClose] take the entries of its own [proxy] out
    of the parent's table and leave what surrounds them. *)
Lemma teardown_parent_table signals parent n (l r : Emitter) :
  NoDup (attached_entries signals parent n ++ r) ->
  remove_last (EvExit, HangupListener (message_ids parent + (length signals + n)))
    (remove_each (signal_entries (signal_listeners n signals))
       (remove_each (parent_message_entry parent (length signals + n))
          (l ++ attached_entries signals parent n ++ r))) =
  l ++ r.
Proof.
  unfold attached_entries. intros Hnd.
  set (S := signal_entries _) in *. set (PM := parent_message_entry _ _) in *.
  set (X := (EvExit, _)) in *.
  assert (NoDup (PM ++ [X] ++ r)) as H1.
  { apply (sublist_NoDup _ _ Hnd). rewrite <- !app_assoc. by apply sublist_inserts_l. }
  assert (NoDup (S ++ [X] ++ r)) as H2.
  { apply (sublist_NoDup _ _ Hnd). rewrite <- !app_assoc.
    apply sublist_app; [done|]. by apply sublist_inserts_l. }
  replace (l ++ (S ++ PM ++ [X]) ++ r) with ((l ++ S) ++ PM ++ [X] ++ r)
    by (by rewrite <- !app_assoc).
  rewrite remove_each_middle by done.
  rewrite <- app_assoc, remove_each_middle by done.
  apply remove_last_middle.
  apply NoDup_app in H2 as (_ & _ & H2). by apply NoDup_cons in H2 as [H2 _].
Qed.

(** Two children proxied behind the same parent: with both attached an
    event of the parent is passed on twice; after either child has
    closed it is passed on once, by the relays of the other, which the
    teardown of the first has left in place.  The hypothesis says that
    the signal names are pairwise different. *)
Theorem proxies_close_independently
    (signals : list Signal) (process parent : ProcessLike)
    (childA childB : ChildProcess) (c : option Z) (s : option Signal)
    (ev : Event) (message : Val) (w : World) :
  NoDup signals ->
  let both :=
    let* a := proxy signals process parent childA in
    let* b := proxy signals process parent childB in
    ret (a, b) in
  let once := forwarded signals parent ev message in
  trace (parent_emit ev message) (exec both w) =
    trace (parent_emit ev message) w ++ once ++ once /\
  trace (parent_emit ev message) (exec (let* ab := both in on_close ab.1 c s) w) =
    trace (parent_emit ev message) w ++ once /\
  trace (parent_emit ev message) (exec (let* ab := both in on_close ab.2 c s) w) =
    trace (parent_emit ev message) w ++ once.
Proof.
  intros Hnd both once. subst both once.
  set (n := next_id w). set (K := proxy_ids signals parent).
  pose proof (proxy_runs signals process parent childA w) as HA. cbv zeta in HA.
  fold n in HA. change (length signals + message_ids parent + 2)%nat with K in HA.
  set (wA := after K (proxy_calls signals parent childA n) w) in *.
  pose proof (proxy_runs signals process parent childB wA) as HB. cbv zeta in HB.
  change (next_id wA) with (K + n)%nat in HB.
  change (length signals + message_ids parent + 2)%nat with K in HB.
  set (wB := after K (proxy_calls signals parent childB (K + n)) wA) in *.
  assert (parent_listeners wB =
          parent_listeners w ++ attached_entries signals parent n ++
          attached_entries signals parent (K + n)) as Htable.
  { subst wB wA.
    destruct (proxy_calls_tables signals parent childB (K + n) K
                (after K (proxy_calls signals parent childA n) w)) as (-> & _ & _).
    destruct (proxy_calls_tables signals parent childA n K w) as (-> & _ & _).
    unfold attached_entries. by rewrite <- !app_assoc. }
  pose proof (attached_entries_twice_NoDup signals parent n) as Hboth. fold K in Hboth.
  assert (forall A (f : Proxied * Proxied -> M A),
    exec (let* ab :=
            (let* a := proxy signals process parent childA in
             let* b := proxy signals process parent childB in
             ret (a, b)) in f ab) w =
    exec (f (eval (proxy signals process parent childA) w,
             eval (proxy signals process parent childB) wA)) wB) as Hrun.
  { intros A f. rewrite !exec_bind, !eval_bind.
    rewrite (runs_exec _ _ _ _ _ HA). fold wA.
    rewrite (runs_exec _ _ _ _ _ HB). fold wB. reflexivity. }
  split; [|split].
  - rewrite !exec_bind. rewrite (runs_exec _ _ _ _ _ HA). fold wA.
    rewrite (runs_exec _ _ _ _ _ HB). fold wB.
    change (exec (ret _) wB) with wB.
    rewrite !parent_emit_trace, Htable, !emitted_app.
    unfold attached_entries. by rewrite !emitted_attached.
  - rewrite Hrun. cbn [fst].
    rewrite (runs_eval _ _ _ _ _ HA). cbn [on_close].
    rewrite (signal_map_NoDup _ signals Hnd).
    rewrite (runs_exec _ _ _ _ _ (onClose_runs process parent childA _ _ _ _ _ _)).
    rewrite !parent_emit_trace.
    destruct (teardown_calls_tables parent childA (signal_listeners n signals)
                (length signals + n)
                (HangupListener (message_ids parent + (length signals + n)))
                0 [ResolveClose c s] wB) as (-> & _ & _); [done|].
    rewrite Htable, teardown_parent_table by done.
    rewrite emitted_app. unfold attached_entries. by rewrite emitted_attached.
  - rewrite Hrun. cbn [snd].
    rewrite (runs_eval _ _ _ _ _ HB). cbn [on_close].
    rewrite (signal_map_NoDup _ signals Hnd).
    rewrite (runs_exec _ _ _ _ _ (onClose_runs process parent childB _ _ _ _ _ _)).
    rewrite !parent_emit_trace.
    destruct (teardown_calls_tables parent childB (signal_listeners (K + n) signals)
                (length signals + (K + n))
                (HangupListener (message_ids parent + (length signals + (K + n))))
                0 [ResolveClose c s] wB) as (-> & _ & _); [done|].
    rewrite Htable, app_assoc.
    rewrite <- (app_nil_r (attached_entries signals parent (K + n))) at 1.
    rewrite teardown_parent_table
      by (rewrite app_nil_r; apply attached_NoDup).
    rewrite app_nil_r, emitted_app. unfold attached_entries. by rewrite emitted_attached.
Qed.

Lemma proxies_close_independently_witness :
  NoDup sample_signals /\
  let both :=
    let* a := proxy sample_signals sample_process sample_parent sample_child in
    let* b := proxy sample_signals sample_process sample_parent sample_child in
    ret (a, b) in
  trace (parent_emit (EvSignal "SIGINT") VUndefined)
        (exec (let* ab := both in on_close ab.1 (Some 0) None) sample_world) =
    [ChildKill "SIGINT"].
Proof.
  assert (NoDup sample_signals) as Hnd
    by (apply (bool_decide_unpack _); vm_compute; exact I).
  split; [exact Hnd|].
  exact (proj1 (proj2 (proxies_close_independently sample_signals sample_process
                         sample_parent sample_child sample_child (Some 0) None
                         (EvSignal "SIGINT") VUndefined sample_world Hnd))).
Defined.
